(** * muts-endpoint: the decorators of [src/decorators.ts] and
      [src/endpoints/decorators/xdelete.ts]

    A shallow embedding of the four decorators ([redacted], [cors],
    [endpoint], [xdelete]) and the properties the specification states
    about them.

    Conventions of the embedding.
    - A JavaScript object that is mutated in place (an [HTTPResponse], a
      metadata record, an array) lives in a store and is denoted by its
      location; a store is a list indexed by location.
    - A call is a function from the store to a completion and a new store.
    - A promise is represented by the state it settles in; the callbacks
      chained on it run in sequence, nothing else runs in between.
    - Strings are Rocq strings. The built-ins of the engine that the code
      calls on values it does not control ([validate], [toUpperCase]) are
      parameters; what [toUpperCase] does on ASCII text is written out. *)

From Stdlib Require Import ZArith NArith Ascii String.
From stdpp Require Import base option list strings gmap.

Local Open Scope string_scope.
Local Open Scope Z_scope.
Local Open Scope list_scope.

(** * Part I: the embedding *)

(** ** Values shared by the decorators *)

(** What a [throw] or a rejection carries ([error: any] in the source).
    Only the shape that [error.message] observes is kept. *)
Inductive JsError : Type :=
  | ErrorObj (message : string)   (* an object with a string [message] *)
  | EngineTypeError               (* a TypeError raised by the engine itself *)
  | NoMessageValue                (* a non-nullish value without [message] *)
  | Nullish.                      (* [undefined] or [null] *)

(** The value read by [error.message]. *)
Inductive MessageValue : Type :=
  | MString (s : string)
  | MEngineText                   (* the engine's own text of a TypeError *)
  | MUndefined.

(** [error.message]: reading a property of a nullish value throws. *)
Definition message_of (error : JsError) : option MessageValue :=
  match error with
  | ErrorObj m => Some (MString m)
  | EngineTypeError => Some MEngineText
  | NoMessageValue => Some MUndefined
  | Nullish => None
  end.

(** Response bodies: what a handler stored, or one of the two object
    literals built by [endpoint]. The [Set<string>] of validation errors
    is kept in insertion order, without duplicates. *)
Inductive ResponseBody : Type :=
  | HandlerBody (content : string)
  | ValidationErrorsBody (message : list string)
  | FailureBody (message : MessageValue).

(** Modelled from the spec: the [HTTPResponse] class of [Model.ts] is not
    part of the sources. The specification gives a response as a status
    code, a body and a mapping from header names to header values; the
    setters update one component and leave the others. Header names are
    kept as they are written. *)
Record HTTPResponse : Type := mkResponse {
  statusCode : Z;
  body : ResponseBody;
  headers : gmap string string
}.

Definition setBody (b : ResponseBody) (r : HTTPResponse) : HTTPResponse :=
  {| statusCode := statusCode r; body := b; headers := headers r |}.

Definition setStatusCode (c : Z) (r : HTTPResponse) : HTTPResponse :=
  {| statusCode := c; body := body r; headers := headers r |}.

Definition addHeader (name value : string) (r : HTTPResponse) : HTTPResponse :=
  {| statusCode := statusCode r; body := body r;
     headers := <[name := value]> (headers r) |}.

(** [addHeaders(obj)] adds every own property of [obj], in order. *)
Definition addHeaders (hs : list (string * string)) (r : HTTPResponse)
  : HTTPResponse :=
  foldl (fun acc kv => addHeader kv.1 kv.2 acc) r hs.

Record RequestContext : Type := { requestId : string }.

(** The part of [HTTPEvent] that the decorators read. *)
Record HTTPEvent : Type := {
  event_body : option string;
  requestContext : RequestContext
}.

Definition Schema : Type := string.

Record Validation : Type := { schema : Schema }.

(** The [arguments] object of a handler call: the event, the second
    argument (passed through untouched) and the validations. *)
Record Arguments : Type := {
  arg0 : HTTPEvent;
  arg1 : string;
  arg2 : option (list Validation)
}.

Definition Loc : Type := nat.

Definition Heap : Type := list HTTPResponse.

(** The state a promise settles in. *)
Inductive Promise : Type :=
  | Fulfilled (response : Loc)
  | Rejected (error : JsError)
  | Pending.

(** How a call of a decorated method completes. *)
Inductive Completion : Type :=
  | ReturnResponse (response : Loc)   (* a bare [HTTPResponse] *)
  | ReturnPromise (p : Promise)
  | Throw (error : JsError).

(** A method stored in a property descriptor. An async method never
    completes with [Throw]: what its body throws rejects its promise. *)
Definition Method : Type := Arguments -> Heap -> Completion * Heap.

(** ** A small state monad with a call log *)

Inductive Call : Type :=
  | ValidateCall (b : option string) (s : Schema)
  | HandlerCall (args : Arguments).

Record World : Type := mkWorld { heap : Heap; calls : list Call }.

Definition M (A : Type) : Type := World -> A * World.

Definition ret {A} (a : A) : M A := fun w => (a, w).

Definition bind {A B} (m : M A) (k : A -> M B) : M B :=
  fun w => let (a, w') := m w in k a w'.

Notation "'let*' x := m 'in' k" := (bind m (fun x => k))
  (at level 10, x name, m at level 100, k at level 200,
   format "'[v' 'let*'  x  :=  m  'in' '/' k ']'").

(** [new HTTPResponse] initialised to [r]: a fresh location. *)
Definition alloc (r : HTTPResponse) : M Loc :=
  fun w => (List.length (heap w), {| heap := heap w ++ [r]; calls := calls w |}).

(** Dereference; [None] when the value is not a response object. *)
Definition deref (l : Loc) : M (option HTTPResponse) :=
  fun w => (heap w !! l, w).

(** In-place update of the object at [l]. *)
Definition store (l : Loc) (r : HTTPResponse) : M unit :=
  fun w => (tt, {| heap := <[l := r]> (heap w); calls := calls w |}).

(** [targetMethod.apply(this, arguments)], logged. *)
Definition invoke (targetMethod : Method) (args : Arguments) : M Completion :=
  fun w =>
    let (c, h) := targetMethod args (heap w) in
    (c, {| heap := h; calls := calls w ++ [HandlerCall args] |}).

(** A wrapper seen as a method again: what is stored in [descriptor.value]. *)
Definition as_method (f : Arguments -> M Completion) : Method :=
  fun args h =>
    let (c, w) := f args {| heap := h; calls := [] |} in (c, heap w).

(** [p.then(onFulfilled)] *)
Definition promise_then (onFulfilled : Loc -> M (Loc + JsError)) (p : Promise)
  : M Promise :=
  match p with
  | Fulfilled l =>
      let* r := onFulfilled l in
      ret (match r with inl l' => Fulfilled l' | inr e => Rejected e end)
  | Rejected e => ret (Rejected e)
  | Pending => ret Pending
  end.

(** [p.catch(onRejected)] *)
Definition promise_catch (onRejected : JsError -> M (Loc + JsError)) (p : Promise)
  : M Promise :=
  match p with
  | Rejected e =>
      let* r := onRejected e in
      ret (match r with inl l' => Fulfilled l' | inr e' => Rejected e' end)
  | Fulfilled l => ret (Fulfilled l)
  | Pending => ret Pending
  end.

(** [response.addHeader(name, value)] on the object at [l]; a value that
    is not a response object has no such method. *)
Definition addHeader_at (l : Loc) (name value : string) : M (Loc + JsError) :=
  let* o := deref l in
  match o with
  | Some r => let* u := store l (addHeader name value r) in ret (inl l)
  | None => ret (inr EngineTypeError)
  end.

(** ** Sets of strings, arrays of strings, letter case *)

(** [Set.prototype.add] *)
Definition set_add (x : string) (s : list string) : list string :=
  if decide (x ∈ s) then s else s ++ [x].

(** [Array.prototype.join] on strings. *)
Fixpoint join (sep : string) (l : list string) : string :=
  match l with
  | [] => EmptyString
  | [x] => x
  | x :: rest => x +:+ sep +:+ join sep rest
  end.


Definition upper_ascii (c : ascii) : ascii :=
  let n := N_of_ascii c in
  if ((97 <=? n) && (n <=? 122))%N then ascii_of_N (n - 32) else c.


(** What [String.prototype.toUpperCase] gives on a string of ASCII
    characters: the letters a to z become A to Z, every other character
    stays. *)
Fixpoint toUpperCase_ascii (s : string) : string :=
  match s with
  | EmptyString => EmptyString
  | String c rest => String (upper_ascii c) (toUpperCase_ascii rest)
  end.





(** ** Decorator arguments *)

(** The object a decorator is applied to (a class prototype): its
    identity, the identities along its prototype chain, and the class
    that [target.constructor] denotes. *)
Record Target : Type := {
  self : nat;
  protos : list nat;
  constructor : string
}.

Record PropertyDescriptor : Type := {
  value : Method;
  writable : bool;
  enumerable : bool;
  configurable : bool
}.

(** [descriptor.value = m] *)
Definition set_value (m : Method) (d : PropertyDescriptor) : PropertyDescriptor :=
  {| value := m; writable := writable d; enumerable := enumerable d;
     configurable := configurable d |}.

Definition HTTPEventCondition : Type := option string -> HTTPEvent -> bool.

(** Modelled from the spec: [EndpointRouter] is not part of the sources.
    [EndpointRouter.register(path, action, endpoint, descriptor, condition,
    priority)] appends to the registry; it never overwrites and never
    removes duplicates. *)
Record EndpointRoute : Type := {
  route_path : string;
  route_action : string;
  route_endpoint : Method;
  route_descriptor : PropertyDescriptor;
  route_condition : option HTTPEventCondition;
  route_priority : option Z
}.

Module EndpointRouter.

Definition register (path action : string) (endpoint : Method)
    (descriptor : PropertyDescriptor) (condition : option HTTPEventCondition)
    (priority : option Z) (routes : list EndpointRoute) : list EndpointRoute :=
  routes ++ [{| route_path := path; route_action := action;
                route_endpoint := endpoint; route_descriptor := descriptor;
                route_condition := condition; route_priority := priority |}].

End EndpointRouter.

(** ** [cors] (decorators.ts, lines 36-65) *)

(** [allowedOrigin: string | AllowedOrigin] *)
Inductive AllowedOriginArg : Type :=
  | OriginString (s : string)
  | OriginFunction (f : HTTPEvent -> HTTPResponse -> string).

(** [typeof allowedOrigin === 'string' ? allowedOrigin
      : allowedOrigin(event, response)] *)
Definition origin_of (allowedOrigin : AllowedOriginArg) (event : HTTPEvent)
    (response : HTTPResponse) : string :=
  match allowedOrigin with
  | OriginString s => s
  | OriginFunction f => f event response
  end.

(** The function that [cors] stores in [descriptor.value] (lines 45-61).
    [allowedHeaders] lists the own properties of the header object in the
    order [Object.keys] gives. *)
Definition cors_wrapper (allowedOrigin : AllowedOriginArg)
    (allowedActions : option (list string))
    (allowedHeaders : option (list (string * string)))
    (allowCredentials : bool)
    (targetMethod : Method) (args : Arguments) : M Completion :=
  let event := arg0 args in
  let* c := invoke targetMethod args in
  match c with
  | Throw e => ret (Throw e)
  | ReturnResponse _ => ret (Throw EngineTypeError)
  | ReturnPromise p =>
      let* p1 := promise_then (fun response =>
        let* o := deref response in
        match o with
        | None => ret (inr EngineTypeError)
        | Some r =>
            let origin := origin_of allowedOrigin event r in
            let r := addHeaders
                       [("Access-Control-Allow-Origin", origin);
                        ("Access-Control-Allow-Credentials",
                         if allowCredentials then "true" else "false")] r in
            let r := match allowedActions with
                     | Some actions =>
                         addHeader "Access-Control-Allow-Methods"
                           (join ", " actions) r
                     | None => r
                     end in
            let r := match allowedHeaders with
                     | Some hs =>
                         addHeader "Access-Control-Allow-Headers"
                           (join ", " (map fst hs)) r
                     | None => r
                     end in
            let* u := store response r in
            ret (inl response)
        end) p in
      ret (ReturnPromise p1)
  end.

(** [cors(allowedOrigin, allowedActions, allowedHeaders, allowCredentials)
    (target, propertyKey, descriptor)]; an omitted [allowCredentials]
    defaults to [true]. *)
Definition cors (allowedOrigin : AllowedOriginArg)
    (allowedActions : option (list string))
    (allowedHeaders : option (list (string * string)))
    (allowCredentials : option bool)
    (target : Target) (propertyKey : string) (descriptor : PropertyDescriptor)
  : PropertyDescriptor :=
  let targetMethod := value descriptor in
  set_value (as_method (cors_wrapper allowedOrigin allowedActions
                          allowedHeaders (default true allowCredentials)
                          targetMethod))
            descriptor.

Definition cors_names : list string :=
  ["Access-Control-Allow-Origin"; "Access-Control-Allow-Credentials";
   "Access-Control-Allow-Methods"; "Access-Control-Allow-Headers"].

(** ** [endpoint] (decorators.ts, lines 79-119) *)

Section Decorators.

(** [EndpointRouter.validationHandler.validate], the external validator:
    the empty string means that the body is valid. *)
Variable validate : option string -> Schema -> string.

(** The state of a response object as the static [HTTPResponse.setBody]
    creates it, before the setters run. *)
Variable newResponse : HTTPResponse.

(** [String.prototype.toUpperCase], the engine's built-in, on every
    string; on ASCII text it is [toUpperCase_ascii]. *)
Variable toUpperCase : string -> string.

Definition call_validate (b : option string) (s : Schema) : M string :=
  fun w => (validate b s,
            {| heap := heap w; calls := calls w ++ [ValidateCall b s] |}).

(** [validations.forEach(validation => validationErrors.add(
      validate(event.body, validation.schema)))] *)
Fixpoint forEach_validate (event : HTTPEvent) (validations : list Validation)
    (validationErrors : list string) : M (list string) :=
  match validations with
  | [] => ret validationErrors
  | validation :: rest =>
      let* e := call_validate (event_body event) (schema validation) in
      forEach_validate event rest (set_add e validationErrors)
  end.

(** The response object of the 400 and 501 paths. *)
Definition built (b : ResponseBody) (code : Z) (event : HTTPEvent)
  : HTTPResponse :=
  addHeader "X-REQUEST-ID" (requestId (requestContext event))
    (setStatusCode code (setBody b newResponse)).

(** [HTTPResponse.setBody(b).setStatusCode(code)
      .addHeader('X-REQUEST-ID', event.requestContext.requestId)] *)
Definition respond (b : ResponseBody) (code : Z) (event : HTTPEvent) : M Loc :=
  alloc (built b code event).

(** The function that [endpoint] stores in [descriptor.value]
    (lines 83-111). *)
Definition endpoint_wrapper (targetMethod : Method) (args : Arguments)
  : M Completion :=
  let event := arg0 args in
  let validations := arg2 args in
  let proceed : M Completion :=
    let* c := invoke targetMethod args in
    match c with
    | Throw e => ret (Throw e)
    | ReturnResponse _ => ret (Throw EngineTypeError)
    | ReturnPromise p =>
        let* p1 := promise_then (fun response =>
                     addHeader_at response "X-REQUEST-ID"
                       (requestId (requestContext event))) p in
        let* p2 := promise_catch (fun error =>
                     match message_of error with
                     | Some m =>
                         let* l := respond (FailureBody m) 501 event in
                         ret (inl l)
                     | None => ret (inr EngineTypeError)
                     end) p1 in
        ret (ReturnPromise p2)
    end in
  match validations with
  | Some vs =>
      let* validationErrors := forEach_validate event vs [] in
      if negb (Nat.eqb (List.length validationErrors) 0)
      then
        let* l := respond (ValidationErrorsBody validationErrors) 400 event in
        ret (ReturnResponse l)
      else proceed
  | None => proceed
  end.

(** One call of the wrapper on store [h], with the calls it makes. *)
Definition dispatch (targetMethod : Method) (args : Arguments) (h : Heap)
  : Completion * World :=
  endpoint_wrapper targetMethod args {| heap := h; calls := [] |}.

(** [endpoint(path, action, condition, priority)(target, propertyKey,
    descriptor)]: the descriptor it returns and the registry it leaves.
    An [HTTPAction] is a string at run time, so the test
    [typeof action === 'string'] holds and [toUpperCase] runs twice. *)
Definition endpoint (path action : string)
    (condition : option HTTPEventCondition) (priority : option Z)
    (target : Target) (propertyKey : string) (descriptor : PropertyDescriptor)
    (routes : list EndpointRoute) : PropertyDescriptor * list EndpointRoute :=
  let targetMethod := value descriptor in
  let descriptor := set_value (as_method (endpoint_wrapper targetMethod))
                              descriptor in
  let routeAction := toUpperCase action in
  (descriptor,
   EndpointRouter.register path (toUpperCase routeAction) (value descriptor)
     descriptor condition priority routes).

(** The set the validation loop builds, as a fold over the validator
    results. *)
Definition collected (b : option string) (vs : list Validation)
    (acc : list string) : list string :=
  foldl (fun s v => set_add (validate b (schema v)) s) acc vs.

(** The claim about handler failures as the specification words it: the
    wrapper answers a failure carrying message [m] with a 501 response. *)
Definition answered_501 (targetMethod : Method) (args : Arguments) (h : Heap)
    (m : string) : Prop :=
  let run := dispatch targetMethod args h in
  ∃ l r, run.1 = ReturnPromise (Fulfilled l) ∧
         heap run.2 !! l = Some r ∧
         statusCode r = 501 ∧
         body r = FailureBody (MString m) ∧
         headers r !! "X-REQUEST-ID" =
           Some (requestId (requestContext (arg0 args))).

End Decorators.

(** The validator calls of one run of the loop. *)
Definition validate_calls (event : HTTPEvent) (vs : list Validation)
  : list Call :=
  map (fun v => ValidateCall (event_body event) (schema v)) vs.

(** No validation stands between the request and the handler: the third
    argument is missing or is an empty array. *)
Definition no_validation (args : Arguments) : Prop :=
  arg2 args = None ∨ arg2 args = Some [].

(** A handler that throws, or whose promise rejects, with an error
    carrying message [m]. *)
Definition fails_with (c : Completion) (m : string) : Prop :=
  c = Throw (ErrorObj m) ∨ c = ReturnPromise (Rejected (ErrorObj m)).

(** ** [xdelete] (endpoints/decorators/xdelete.ts) *)

Module Xdelete.

(** Modelled from the spec: [HttpAction] and the [Router] service are not
    part of the sources. The actions are the HTTP verbs the specification
    lists; [Router.register] appends the route it is given to the registry
    and changes nothing else. *)
Inductive HttpAction : Type := GET | POST | PUT | DELETE | PATCH.

Record Route : Type := {
  path : string;
  clazz : string;
  action : HttpAction;
  functionName : string;
  function : Method
}.

Module Router.

Definition register (route : Route) (routes : list Route) : list Route :=
  routes ++ [route].

End Router.

(** [xdelete(path)(target, propertyKey, descriptor)]: the descriptor it
    returns and the registry it leaves. *)
Definition xdelete (path : string) (target : Target) (propertyKey : string)
    (descriptor : PropertyDescriptor) (routes : list Route)
  : PropertyDescriptor * list Route :=
  (descriptor,
   Router.register {| path := path;
                      clazz := constructor target;
                      action := DELETE;
                      functionName := propertyKey;
                      function := value descriptor |} routes).

End Xdelete.

(** ** [redacted] (decorators.ts, lines 16-25) *)

Module Redacted.

Definition METADATA_KEY : string := "__MU-TS".

Definition REDACTED_KEY : string := "redacted".

(** The value of a field of a metadata record: a reference to an array of
    strings, or some other value, of which only the truthiness is
    observed. *)
Inductive FieldValue : Type :=
  | ArrayRef (a : nat)
  | OtherField (truthy : bool) (v : string).

(** A value kept by [Reflect.defineMetadata]: a reference to a record, or
    some other value. *)
Inductive MetaValue : Type :=
  | RecordRef (m : nat)
  | OtherMeta (truthy : bool) (v : string).

(** The records and the arrays by location, and the metadata each object
    owns, by metadata key. *)
Record Store : Type := mkStore {
  records : list (gmap string FieldValue);
  arrays : list (list string);
  own : gmap nat (gmap string MetaValue)
}.

Definition getOwnMetadata (key : string) (o : nat) (st : Store)
  : option MetaValue :=
  own st !! o ≫= (fun m => m !! key).

(** [Reflect.getMetadata] looks at the object and then up its prototype
    chain. *)
Fixpoint getMetadata_along (key : string) (chain : list nat) (st : Store)
  : option MetaValue :=
  match chain with
  | [] => None
  | o :: rest =>
      match getOwnMetadata key o st with
      | Some v => Some v
      | None => getMetadata_along key rest st
      end
  end.

Definition getMetadata (key : string) (target : Target) (st : Store)
  : option MetaValue :=
  getMetadata_along key (self target :: protos target) st.

Definition defineMetadata (key : string) (v : MetaValue) (target : Target)
    (st : Store) : Store :=
  {| records := records st; arrays := arrays st;
     own := <[self target := <[key := v]> (default ∅ (own st !! self target))]>
              (own st) |}.

(** [redacted(target, propertyToRedact)]; [None] when a TypeError is
    thrown (the value found is truthy but is not a record, or not an
    array) or a reference does not denote an object of the store. *)
Definition redacted (target : Target) (propertyToRedact : string)
    (st : Store) : option Store :=
  (* const metadata = Reflect.getMetadata(METADATA_KEY, target) || {} *)
  '(metadata, st) ←
    match getMetadata METADATA_KEY target st with
    | Some (RecordRef m) => Some (m, st)
    | Some (OtherMeta true _) => None
    | Some (OtherMeta false _) | None =>
        Some (List.length (records st),
              {| records := records st ++ [∅]; arrays := arrays st;
                 own := own st |})
    end;
  fields ← records st !! metadata;
  (* const redactedKeys = metadata[REDACTED_KEY] || [] *)
  '(redactedKeys, st) ←
    match fields !! REDACTED_KEY with
    | Some (ArrayRef a) => Some (a, st)
    | Some (OtherField true _) => None
    | Some (OtherField false _) | None =>
        Some (List.length (arrays st),
              {| records := records st; arrays := arrays st ++ [[]];
                 own := own st |})
    end;
  items ← arrays st !! redactedKeys;
  (* redactedKeys.push(propertyToRedact) *)
  let st := {| records := records st;
               arrays := <[redactedKeys := items ++ [propertyToRedact]]> (arrays st);
               own := own st |} in
  (* metadata[REDACTED_KEY] = redactedKeys *)
  let st := {| records := <[metadata := <[REDACTED_KEY := ArrayRef redactedKeys]> fields]>
                            (records st);
               arrays := arrays st;
               own := own st |} in
  (* Reflect.defineMetadata(METADATA_KEY, metadata, target) *)
  Some (defineMetadata METADATA_KEY (RecordRef metadata) target st).

(** The field [k] of the target's metadata record, if there is one. *)
Definition metadata_field (k : string) (target : Target) (st : Store)
  : option FieldValue :=
  match getMetadata METADATA_KEY target st with
  | Some (RecordRef m) => records st !! m ≫= (fun fields => fields !! k)
  | _ => None
  end.

(** The target's redacted-key list. *)
Definition redactedKeys_of (target : Target) (st : Store) : list string :=
  match metadata_field REDACTED_KEY target st with
  | Some (ArrayRef a) => default [] (arrays st !! a)
  | _ => []
  end.

(** The metadata of the target, when present and truthy, is a record of
    the store, and its redacted field, when present and truthy, is an
    array of the store. *)
Definition well_typed (target : Target) (st : Store) : bool :=
  match getMetadata METADATA_KEY target st with
  | Some (RecordRef m) =>
      match records st !! m with
      | Some fields =>
          match fields !! REDACTED_KEY with
          | Some (ArrayRef a) =>
              match arrays st !! a with Some _ => true | None => false end
          | Some (OtherField truthy _) => negb truthy
          | None => true
          end
      | None => false
      end
  | Some (OtherMeta truthy _) => negb truthy
  | None => true
  end.

(** The three writes that end [redacted], once the metadata record [m] and
    the array [a] are at hand. *)
Definition written (target : Target) (propertyToRedact : string)
    (m : nat) (fields : gmap string FieldValue) (a : nat)
    (items : list string) (st : Store) : Store :=
  defineMetadata METADATA_KEY (RecordRef m) target
    {| records := <[m := <[REDACTED_KEY := ArrayRef a]> fields]> (records st);
       arrays := <[a := items ++ [propertyToRedact]]> (arrays st);
       own := own st |}.

Definition empty_store : Store := {| records := []; arrays := []; own := ∅ |}.

(** A class and a class that extends it. *)
Definition parent_target : Target :=
  {| self := 1; protos := []; constructor := "Account" |}.

Definition child_target : Target :=
  {| self := 2; protos := [1%nat]; constructor := "Admin" |}.

(** The store after [password] was redacted on the parent class. *)
Definition one_key_store : Store :=
  {| records := [{[REDACTED_KEY := ArrayRef 0]}];
     arrays := [["password"]];
     own := {[1%nat := {[METADATA_KEY := RecordRef 0]}]} |}.

End Redacted.

(** ** Sample inputs *)

Definition sample_event : HTTPEvent :=
  {| event_body := Some "{}"; requestContext := {| requestId := "req-1" |} |}.

Definition sample_args (vs : option (list Validation)) : Arguments :=
  {| arg0 := sample_event; arg1 := "context"; arg2 := vs |}.

Definition blank_response : HTTPResponse :=
  mkResponse 200 (HandlerBody EmptyString) ∅.

(** A validator that accepts the schema named "ok" and answers any other
    schema with a message naming it. *)
Definition sample_validate (b : option string) (s : Schema) : string :=
  if decide (s = "ok") then EmptyString else "bad " +:+ s.

(** An async handler that answers 200 with a new response object. *)
Definition ok_handler : Method :=
  fun _ h => (ReturnPromise (Fulfilled (List.length h)),
              h ++ [mkResponse 200 (HandlerBody "done") ∅]).

(** An async handler whose promise rejects. *)
Definition rejecting_handler : Method :=
  fun _ h => (ReturnPromise (Rejected (ErrorObj "boom")), h).

(** A handler that is not async and throws before it returns a promise. *)
Definition throwing_handler : Method :=
  fun _ h => (Throw (ErrorObj "boom"), h).

Definition empty_world : World := {| heap := []; calls := [] |}.

(** An origin function that reads both of its arguments: the request id of
    the event and the body of the response. *)
Definition sample_origin (event : HTTPEvent) (response : HTTPResponse)
  : string :=
  requestId (requestContext event) +:+ "@" +:+
  match body response with
  | HandlerBody content => content
  | _ => "?"
  end.

Definition sample_target : Target :=
  {| self := 0; protos := []; constructor := "Users" |}.

Definition sample_descriptor : PropertyDescriptor :=
  {| value := ok_handler; writable := true; enumerable := false;
     configurable := true |}.

(** ** Definitions for the further properties *)

(** The response [cors] leaves in place of a fulfilled response [r]. *)
Definition with_cors_headers (allowedOrigin : AllowedOriginArg)
    (allowedActions : option (list string))
    (allowedHeaders : option (list (string * string)))
    (allowCredentials : option bool)
    (event : HTTPEvent) (r : HTTPResponse) : HTTPResponse :=
  let r1 := addHeader "Access-Control-Allow-Credentials"
              (if default true allowCredentials then "true" else "false")
              (addHeader "Access-Control-Allow-Origin"
                 (origin_of allowedOrigin event r) r) in
  let r2 := match allowedActions with
            | Some actions =>
                addHeader "Access-Control-Allow-Methods" (join ", " actions) r1
            | None => r1
            end in
  match allowedHeaders with
  | Some hs =>
      addHeader "Access-Control-Allow-Headers" (join ", " (map fst hs)) r2
  | None => r2
  end.

(** A completion that is not a fulfilled promise: a thrown error, a
    rejected promise or a promise that never settles. *)
Definition unfulfilled (c : Completion) : bool :=
  match c with
  | Throw _ | ReturnPromise (Rejected _) | ReturnPromise Pending => true
  | ReturnPromise (Fulfilled _) | ReturnResponse _ => false
  end.

(** [redacted] applied to the properties [ks] of one class, in the order
    of their declaration. *)
Fixpoint redacted_all (target : Target) (ks : list string)
    (st : Redacted.Store) : option Redacted.Store :=
  match ks with
  | [] => Some st
  | k :: rest =>
      match Redacted.redacted target k st with
      | Some st' => redacted_all target rest st'
      | None => None
      end
  end.

(** An async handler that rejects with [undefined]. *)
Definition nullish_handler : Method :=
  fun _ h => (ReturnPromise (Rejected Nullish), h).

(** An async handler whose promise is fulfilled with [undefined]. *)
Definition void_handler : Method :=
  fun _ h => (ReturnPromise (Fulfilled (List.length h)), h).

Ltac run_monad :=
  unfold bind, invoke, ret, promise_then, promise_catch, addHeader_at,
    respond, alloc, deref, store; simpl.

(** * Part II: properties *)

(** ** Sets and letter case *)

Lemma elem_of_set_add x y s : x ∈ set_add y s ↔ x = y ∨ x ∈ s.
Proof.
  unfold set_add. destruct (decide (y ∈ s)) as [Hy|Hy].
  - split; [auto | intros [->|?]; done].
  - rewrite elem_of_app, list_elem_of_singleton. tauto.
Qed.

Lemma NoDup_set_add y s : NoDup s → NoDup (set_add y s).
Proof.
  intros Hs. unfold set_add. destruct (decide (y ∈ s)) as [Hy|Hy]; [done|].
  apply NoDup_app. split; [done|]. split.
  - intros x Hx Hx'. apply list_elem_of_singleton in Hx'. by subst.
  - apply NoDup_singleton.
Qed.

Lemma set_add_not_nil y s : set_add y s ≠ [].
Proof.
  unfold set_add. destruct (decide (y ∈ s)) as [Hy|Hy].
  - intros ->. by apply not_elem_of_nil in Hy.
  - by destruct s.
Qed.








Example join_two : join ", " ["GET"; "POST"] = "GET, POST".
Proof. reflexivity. Qed.

Example toUpperCase_mixed : toUpperCase_ascii "get/{Id}" = "GET/{ID}".
Proof. reflexivity. Qed.

(** ** The validation loop *)

Section ValidationLoop.

Variable validate : option string -> Schema -> string.

Lemma forEach_validate_spec event vs acc w :
  forEach_validate validate event vs acc w =
    (collected validate (event_body event) vs acc,
     {| heap := heap w; calls := calls w ++ validate_calls event vs |}).
Proof.
  unfold validate_calls.
  revert acc w. induction vs as [|v vs IH]; intros acc w; simpl.
  - unfold ret. rewrite app_nil_r. by destruct w.
  - unfold bind, call_validate. rewrite IH. simpl.
    by rewrite <- app_assoc.
Qed.

Lemma elem_of_collected b vs acc x :
  x ∈ collected validate b vs acc ↔
    x ∈ acc ∨ ∃ v, v ∈ vs ∧ x = validate b (schema v).
Proof.
  revert acc. induction vs as [|v vs IH]; intros acc; simpl.
  - split; [auto | intros [?|(v & Hv & _)]; [done | by apply not_elem_of_nil in Hv]].
  - rewrite IH, elem_of_set_add. split.
    + intros [[->|?]|(v' & Hv' & ->)]; [right | by left | right].
      * exists v. split; [apply list_elem_of_here | done].
      * exists v'. split; [by apply list_elem_of_further | done].
    + intros [?|(v' & Hv' & ->)]; [by left; right |].
      apply elem_of_cons in Hv' as [->|Hv']; [by left; left |].
      right. by exists v'.
Qed.

Lemma NoDup_collected b vs acc :
  NoDup acc → NoDup (collected validate b vs acc).
Proof.
  revert acc. induction vs as [|v vs IH]; intros acc Hacc; simpl; [done|].
  apply IH. by apply NoDup_set_add.
Qed.

Lemma collected_not_nil b vs acc :
  acc ≠ [] → collected validate b vs acc ≠ [].
Proof.
  revert acc. induction vs as [|v vs IH]; intros acc Hacc; simpl; [done|].
  apply IH, set_add_not_nil.
Qed.

Lemma collected_cons_not_nil b v vs : collected validate b (v :: vs) [] ≠ [].
Proof. simpl. apply collected_not_nil, set_add_not_nil. Qed.

End ValidationLoop.

(** C7. The validation loop calls the validator once for every validation,
    in order and whatever the earlier results were, and the set it builds
    does not depend on the order: for a permutation of the validations the
    two sets have the same elements (each exactly once). *)
Theorem validation_outcome_order_independent
    (validate : option string -> Schema -> string) (event : HTTPEvent)
    (vs vs' : list Validation) (w : World) :
  vs ≡ₚ vs' →
  let run := forEach_validate validate event vs [] w in
  let run' := forEach_validate validate event vs' [] w in
  calls run.2 = calls w ++ validate_calls event vs ∧
  calls run'.2 = calls w ++ validate_calls event vs' ∧
  List.length (validate_calls event vs') = List.length vs' ∧
  run.1 ≡ₚ run'.1 ∧
  (∀ x, x ∈ run.1 ↔ x ∈ run'.1) ∧
  (list_to_set run.1 : gset string) = list_to_set run'.1.
Proof.
  intros Hp run run'. subst run run'. rewrite !forEach_validate_spec. simpl.
  assert (∀ x, x ∈ collected validate (event_body event) vs [] ↔
               x ∈ collected validate (event_body event) vs' []) as Hsame.
  { intros x. rewrite !elem_of_collected. split.
    - intros [?|(v & Hv & ->)]; [by left|]. right. exists v.
      by rewrite <- Hp.
    - intros [?|(v & Hv & ->)]; [by left|]. right. exists v.
      by rewrite Hp. }
  split_and!; try done.
  - unfold validate_calls. apply length_map.
  - apply NoDup_Permutation; [apply NoDup_collected, NoDup_nil_2 ..| done].
  - apply set_eq. intros x. rewrite !elem_of_list_to_set. apply Hsame.
Qed.

Lemma validation_outcome_order_independent_witness :
  (forEach_validate sample_validate sample_event
     [{| schema := "ok" |}; {| schema := "age" |}; {| schema := "name" |}]
     [] empty_world).1
  ≡ₚ (forEach_validate sample_validate sample_event
        [{| schema := "name" |}; {| schema := "ok" |}; {| schema := "age" |}]
        [] empty_world).1.
Proof.
  apply (validation_outcome_order_independent sample_validate sample_event
           [{| schema := "ok" |}; {| schema := "age" |}; {| schema := "name" |}]
           [{| schema := "name" |}; {| schema := "ok" |}; {| schema := "age" |}]
           empty_world).
  apply Permutation_sym, (Permutation_cons_append [_; _]).
Defined.

(** ** The wrapper installed by [endpoint] *)

Section EndpointWrapper.

Variable validate : option string -> Schema -> string.
Variable newResponse : HTTPResponse.

(** With at least one validation the set is never empty, so the wrapper
    always answers 400 and the handler is not reached. *)
Lemma wrapper_some_cons targetMethod args v vs w :
  arg2 args = Some (v :: vs) →
  endpoint_wrapper validate newResponse targetMethod args w =
    (ReturnResponse (List.length (heap w)),
     {| heap := heap w ++
          [built newResponse
             (ValidationErrorsBody
                (collected validate (event_body (arg0 args)) (v :: vs) []))
             400 (arg0 args)];
        calls := calls w ++ validate_calls (arg0 args) (v :: vs) |}).
Proof.
  intros Hv. unfold endpoint_wrapper. rewrite Hv.
  unfold bind at 1. rewrite forEach_validate_spec.
  pose proof (collected_cons_not_nil validate (event_body (arg0 args)) v vs) as Hne.
  destruct (collected validate (event_body (arg0 args)) (v :: vs) [])
    as [|e es] eqn:He; [done|].
  reflexivity.
Qed.

Lemma wrapper_calls_handler targetMethod args w :
  HandlerCall args ∈
    calls (endpoint_wrapper validate newResponse targetMethod args w).2 →
  HandlerCall args ∈ calls w ∨ no_validation args.
Proof.
  unfold no_validation.
  destruct (arg2 args) as [[|v vs]|] eqn:Hv; [by right; right | | by right; left].
  rewrite (wrapper_some_cons _ _ v vs) by done. simpl.
  rewrite elem_of_app. intros [?|Hin]; [by left|].
  apply list_elem_of_In in Hin. destruct Hin as [?|Hin]; [done|].
  apply in_map_iff in Hin. by destruct Hin as (? & ? & _).
Qed.

Lemma wrapper_fresh_calls_handler targetMethod args h :
  HandlerCall args ∈
    calls (dispatch validate newResponse targetMethod args h).2 →
  no_validation args.
Proof.
  unfold dispatch. intros Hin.
  apply wrapper_calls_handler in Hin as [Hin|?]; [|done].
  by apply not_elem_of_nil in Hin.
Qed.

(** A handler that throws before it returns a promise: the error leaves
    the wrapper as it came. *)
Lemma wrapper_throw targetMethod args w e h1 :
  no_validation args →
  targetMethod args (heap w) = (Throw e, h1) →
  endpoint_wrapper validate newResponse targetMethod args w =
    (Throw e, {| heap := h1; calls := calls w ++ [HandlerCall args] |}).
Proof.
  intros Hnv Hm. unfold endpoint_wrapper.
  destruct Hnv as [-> | ->]; simpl; unfold bind, invoke, ret; simpl;
    by rewrite Hm.
Qed.

Lemma wrapper_fulfilled targetMethod args w l h1 r :
  no_validation args →
  targetMethod args (heap w) = (ReturnPromise (Fulfilled l), h1) →
  h1 !! l = Some r →
  endpoint_wrapper validate newResponse targetMethod args w =
    (ReturnPromise (Fulfilled l),
     {| heap := <[l := addHeader "X-REQUEST-ID"
                          (requestId (requestContext (arg0 args))) r]> h1;
        calls := calls w ++ [HandlerCall args] |}).
Proof.
  intros Hnv Hm Hl. unfold endpoint_wrapper.
  destruct Hnv as [-> | ->]; simpl; run_monad; rewrite Hm; run_monad;
    by rewrite Hl.
Qed.

(** A promise fulfilled with a value that is not a response object: the
    call of [addHeader] fails and the catch handler answers 501. *)
Lemma wrapper_fulfilled_dangling targetMethod args w l h1 :
  no_validation args →
  targetMethod args (heap w) = (ReturnPromise (Fulfilled l), h1) →
  h1 !! l = None →
  endpoint_wrapper validate newResponse targetMethod args w =
    (ReturnPromise (Fulfilled (List.length h1)),
     {| heap := h1 ++ [built newResponse (FailureBody MEngineText) 501 (arg0 args)];
        calls := calls w ++ [HandlerCall args] |}).
Proof.
  intros Hnv Hm Hl. unfold endpoint_wrapper.
  destruct Hnv as [-> | ->]; simpl; run_monad; rewrite Hm; run_monad;
    by rewrite Hl.
Qed.

Lemma wrapper_rejected targetMethod args w e m h1 :
  no_validation args →
  targetMethod args (heap w) = (ReturnPromise (Rejected e), h1) →
  message_of e = Some m →
  endpoint_wrapper validate newResponse targetMethod args w =
    (ReturnPromise (Fulfilled (List.length h1)),
     {| heap := h1 ++ [built newResponse (FailureBody m) 501 (arg0 args)];
        calls := calls w ++ [HandlerCall args] |}).
Proof.
  intros Hnv Hm He. unfold endpoint_wrapper.
  destruct Hnv as [-> | ->]; simpl; run_monad; rewrite Hm; run_monad;
    by rewrite He.
Qed.

Lemma built_request_id b code event :
  headers (built newResponse b code event) !! "X-REQUEST-ID" =
    Some (requestId (requestContext event)).
Proof. unfold built, addHeader. simpl. apply lookup_insert_eq. Qed.

(** C4. Every response that leaves the wrapper, whether returned bare
    (the 400 path) or as the value of the returned promise (the handler's
    own response, or the 501 built from a failure), carries the header
    X-REQUEST-ID with the request id of the incoming event. *)
Theorem every_response_carries_request_id targetMethod args w l :
  let run := endpoint_wrapper validate newResponse targetMethod args w in
  run.1 = ReturnResponse l ∨ run.1 = ReturnPromise (Fulfilled l) →
  ∃ r, heap run.2 !! l = Some r ∧
       headers r !! "X-REQUEST-ID" =
         Some (requestId (requestContext (arg0 args))).
Proof.
  cbv zeta. destruct (arg2 args) as [[|v vs]|] eqn:Hv.
  2:{ rewrite (wrapper_some_cons _ _ v vs) by done. simpl.
      intros [[= <-]|[=]]. eexists. split.
      - apply list_lookup_middle. done.
      - apply built_request_id. }
  all: assert (no_validation args) as Hnv by (unfold no_validation; auto).
  all: destruct (targetMethod args (heap w)) as [c h1] eqn:Hm.
  all: destruct c as [l0|[l0|e|]|e].
  all: try (unfold endpoint_wrapper; rewrite Hv; run_monad; rewrite Hm; simpl;
            by intros [[=]|[=]]).
  all: try (destruct (h1 !! l0) as [r0|] eqn:Hl0;
    [ rewrite (wrapper_fulfilled _ _ _ l0 h1 r0) by done; simpl;
      intros [[=]|[= <-]]; eexists; split;
      [ apply list_lookup_insert_eq; by eapply lookup_lt_Some
      | unfold addHeader; simpl; apply lookup_insert_eq ]
    | rewrite (wrapper_fulfilled_dangling _ _ _ l0 h1) by done; simpl;
      intros [[=]|[= <-]]; eexists; split;
      [ by apply list_lookup_middle | apply built_request_id ] ]).
  all: destruct (message_of e) as [m|] eqn:He;
    [ rewrite (wrapper_rejected _ _ _ e m h1) by done; simpl;
      intros [[=]|[= <-]]; eexists; split;
      [ by apply list_lookup_middle | apply built_request_id ]
    | unfold endpoint_wrapper; rewrite Hv; run_monad; rewrite Hm; simpl;
      rewrite He; simpl; by intros [[=]|[=]] ].
Qed.

(** The failures that reach the promise chain are contained. When the
    handler is invoked and the promise it returns rejects with an error
    carrying message [m] (which is what an async handler that throws
    does), the wrapper's promise is fulfilled with a new response of
    status 501, body [{ message: m }] and the header X-REQUEST-ID set to
    the request id; nothing is thrown or rejected. *)
Theorem rejected_handler_answered_501 targetMethod args h m h1 :
  HandlerCall args ∈
    calls (dispatch validate newResponse targetMethod args h).2 →
  targetMethod args h = (ReturnPromise (Rejected (ErrorObj m)), h1) →
  answered_501 validate newResponse targetMethod args h m ∧
  heap (dispatch validate newResponse targetMethod args h).2 =
    h1 ++ [built newResponse (FailureBody (MString m)) 501 (arg0 args)].
Proof.
  intros Hcall Hm. apply wrapper_fresh_calls_handler in Hcall.
  unfold answered_501, dispatch.
  rewrite (wrapper_rejected _ _ _ (ErrorObj m) (MString m) h1) by done.
  simpl. split; [|done].
  exists (List.length h1),
    (built newResponse (FailureBody (MString m)) 501 (arg0 args)).
  split_and!; try done.
  - by apply list_lookup_middle.
  - apply built_request_id.
Qed.

(** C5. When the handler is invoked and its promise is fulfilled with a
    response object, the wrapper's promise is fulfilled with that same
    object; its status code and body are as the handler left them, its
    headers are the handler's with X-REQUEST-ID set, and no other object
    of the store changes. *)
Theorem handler_response_kept targetMethod args h l h1 r :
  HandlerCall args ∈
    calls (dispatch validate newResponse targetMethod args h).2 →
  targetMethod args h = (ReturnPromise (Fulfilled l), h1) →
  h1 !! l = Some r →
  let run := dispatch validate newResponse targetMethod args h in
  run.1 = ReturnPromise (Fulfilled l) ∧
  (∃ r', heap run.2 !! l = Some r' ∧
         statusCode r' = statusCode r ∧
         body r' = body r ∧
         headers r' = <["X-REQUEST-ID" :=
                          requestId (requestContext (arg0 args))]> (headers r)) ∧
  (∀ l', l' ≠ l → heap run.2 !! l' = h1 !! l') ∧
  List.length (heap run.2) = List.length h1.
Proof.
  intros Hcall Hm Hl run. subst run.
  apply wrapper_fresh_calls_handler in Hcall. unfold dispatch.
  rewrite (wrapper_fulfilled _ _ _ l h1 r) by done. simpl.
  split_and!; try done.
  - eexists. split; [apply list_lookup_insert_eq; by eapply lookup_lt_Some|].
    done.
  - intros l' Hne. by apply list_lookup_insert_ne.
  - apply length_insert.
Qed.

End EndpointWrapper.

(** Containment does not hold for every handler that fails: a handler
    that is not async and throws before it returns a promise is invoked,
    fails with message "boom", and the wrapper throws the same error
    instead of answering 501. *)
Lemma thrown_handler_not_contained :
  ¬ (∀ targetMethod args h m c h1,
       HandlerCall args ∈
         calls (dispatch sample_validate blank_response targetMethod args h).2 →
       targetMethod args h = (c, h1) →
       fails_with c m →
       answered_501 sample_validate blank_response targetMethod args h m).
Proof.
  intros H.
  destruct (H throwing_handler (sample_args None) [] "boom"
              (Throw (ErrorObj "boom")) []) as (l & r & Hrun & _).
  - vm_compute. apply list_elem_of_here.
  - reflexivity.
  - by left.
  - vm_compute in Hrun. discriminate.
Qed.

(** C3, at an input where the claim and the code part. The handler is
    not async and throws an error with message "boom" before it returns a
    promise; no validation runs. The call [targetMethod.apply] stands
    outside the promise chain, so the wrapper throws the same error: no
    response is built and nothing is answered with 501. The same failure
    as a rejected promise is answered with 501, as the claim says. *)
Theorem sync_throw_escapes_wrapper :
  let args := sample_args None in
  throwing_handler args [] = (Throw (ErrorObj "boom"), []) ∧
  dispatch sample_validate blank_response throwing_handler args []
    = (Throw (ErrorObj "boom"),
       {| heap := []; calls := [HandlerCall args] |}) ∧
  ¬ answered_501 sample_validate blank_response throwing_handler args []
      "boom" ∧
  rejecting_handler args [] = (ReturnPromise (Rejected (ErrorObj "boom")), []) ∧
  answered_501 sample_validate blank_response rejecting_handler args [] "boom".
Proof.
  split_and!; try reflexivity.
  - intros (l & r & Hrun & _). vm_compute in Hrun. discriminate.
  - exists 0%nat,
      (built blank_response (FailureBody (MString "boom")) 501 sample_event).
    split_and!; vm_compute; reflexivity.
Qed.

Example thrown_handler_run :
  endpoint_wrapper sample_validate blank_response throwing_handler
    (sample_args None) empty_world
  = (Throw (ErrorObj "boom"),
     {| heap := []; calls := [HandlerCall (sample_args None)] |}).
Proof. reflexivity. Qed.

Lemma rejected_handler_answered_501_witness :
  answered_501 sample_validate blank_response rejecting_handler
    (sample_args None) [] "boom".
Proof.
  apply (rejected_handler_answered_501 sample_validate blank_response
           rejecting_handler (sample_args None) [] "boom" []).
  - vm_compute. apply list_elem_of_here.
  - reflexivity.
Defined.

Lemma every_response_carries_request_id_witness :
  ∃ r, heap (endpoint_wrapper sample_validate blank_response ok_handler
               (sample_args None) empty_world).2 !! 0%nat = Some r ∧
       headers r !! "X-REQUEST-ID" = Some "req-1".
Proof.
  apply (every_response_carries_request_id sample_validate blank_response
           ok_handler (sample_args None) empty_world 0%nat).
  right. vm_compute. reflexivity.
Defined.

Lemma handler_response_kept_witness :
  (dispatch sample_validate blank_response ok_handler
     (sample_args (Some [])) []).1
  = ReturnPromise (Fulfilled 0%nat).
Proof.
  apply (handler_response_kept sample_validate blank_response ok_handler
           (sample_args (Some [])) [] 0%nat
           [mkResponse 200 (HandlerBody "done") ∅]
           (mkResponse 200 (HandlerBody "done") ∅)).
  - vm_compute. apply list_elem_of_here.
  - reflexivity.
  - reflexivity.
Defined.

(** C1, at an input where the claim and the code part. The only validator
    returns the empty string (the body is valid), and still the wrapper
    answers 400, with a message set that holds the empty string; the call
    log holds the validator call and no handler call. *)
Theorem valid_body_answered_400 :
  let args := sample_args (Some [{| schema := "ok" |}]) in
  let run := endpoint_wrapper sample_validate blank_response ok_handler args
               empty_world in
  sample_validate (event_body sample_event) "ok" = EmptyString ∧
  run.1 = ReturnResponse 0%nat ∧
  heap run.2 =
    [built blank_response (ValidationErrorsBody [EmptyString]) 400 sample_event] ∧
  calls run.2 = [ValidateCall (Some "{}") "ok"] ∧
  HandlerCall args ∉ calls run.2.
Proof.
  split_and!; try (vm_compute; reflexivity).
  intros Hin. vm_compute in Hin. apply list_elem_of_In in Hin.
  destruct Hin as [?|[]]. discriminate.
Qed.

(** C2, at an input where the claim and the code part. One validator
    accepts the body and one rejects it with "bad age": the 400 response
    carries a set of two strings, the empty string next to the only error
    message. *)
Theorem passing_validator_leaves_empty_message :
  let args := sample_args (Some [{| schema := "ok" |}; {| schema := "age" |}]) in
  let run := endpoint_wrapper sample_validate blank_response ok_handler args
               empty_world in
  sample_validate (event_body sample_event) "ok" = EmptyString ∧
  sample_validate (event_body sample_event) "age" = "bad age" ∧
  run.1 = ReturnResponse 0%nat ∧
  heap run.2 =
    [built blank_response (ValidationErrorsBody [EmptyString; "bad age"]) 400
       sample_event] ∧
  statusCode (built blank_response
                (ValidationErrorsBody [EmptyString; "bad age"]) 400
                sample_event) = 400.
Proof. split_and!; vm_compute; reflexivity. Qed.

(** When every validator rejects the body, the set of the 400 response
    holds exactly the messages returned, each once. *)
Lemma all_rejecting_validators_collected
    (validate : option string -> Schema -> string) b vs :
  NoDup (collected validate b vs []) ∧
  ∀ x, x ∈ collected validate b vs [] ↔
       ∃ v, v ∈ vs ∧ x = validate b (schema v).
Proof.
  split; [apply NoDup_collected, NoDup_nil_2|].
  intros x. rewrite elem_of_collected. split; [|by right].
  intros [Hin|?]; [|done]. by apply not_elem_of_nil in Hin.
Qed.

(** ** The wrapper installed by [cors] *)

(** C6. When the decorated method's promise is fulfilled with a response
    object, the method installed by [cors] fulfils with the same object,
    whose headers now hold Access-Control-Allow-Origin (the string given,
    or else the value of the function given, applied to the event and to
    the response as the handler left it) and
    Access-Control-Allow-Credentials ("true" or "false", "true" when the
    flag is omitted); they hold Access-Control-Allow-Methods, the actions
    joined with ", ", when an action list was given and keep the handler's
    entry otherwise; likewise Access-Control-Allow-Headers with the joined
    header names; every other header, the status code and the body are
    unchanged. *)
Theorem cors_headers_added allowedOrigin allowedActions allowedHeaders
    allowCredentials target propertyKey descriptor args h l h1 r :
  value descriptor args h = (ReturnPromise (Fulfilled l), h1) →
  h1 !! l = Some r →
  ∃ r',
    value (cors allowedOrigin allowedActions allowedHeaders allowCredentials
             target propertyKey descriptor) args h
      = (ReturnPromise (Fulfilled l), <[l := r']> h1) ∧
    headers r' !! "Access-Control-Allow-Origin"
      = Some (match allowedOrigin with
              | OriginString s => s
              | OriginFunction f => f (arg0 args) r
              end) ∧
    headers r' !! "Access-Control-Allow-Credentials"
      = Some (match allowCredentials with
              | Some false => "false"
              | Some true | None => "true"
              end) ∧
    headers r' !! "Access-Control-Allow-Methods"
      = match allowedActions with
        | Some actions => Some (join ", " actions)
        | None => headers r !! "Access-Control-Allow-Methods"
        end ∧
    headers r' !! "Access-Control-Allow-Headers"
      = match allowedHeaders with
        | Some hs => Some (join ", " (map fst hs))
        | None => headers r !! "Access-Control-Allow-Headers"
        end ∧
    (∀ name, name ∉ cors_names → headers r' !! name = headers r !! name) ∧
    statusCode r' = statusCode r ∧
    body r' = body r.
Proof.
  intros Hm Hl. eexists. split.
  - unfold cors, set_value, as_method, cors_wrapper. simpl.
    run_monad. rewrite Hm. run_monad. rewrite Hl. reflexivity.
  - unfold cors_names, origin_of.
    destruct allowedOrigin as [s|f], allowedActions as [actions|],
      allowedHeaders as [hs|], allowCredentials as [[]|];
      unfold addHeaders, addHeader; simpl.
    all: split_and!; try done.
    all: try (intros name Hn;
              repeat (rewrite lookup_insert_ne;
                      [|intros <-; apply Hn; set_solver]); done).
    all: by simplify_map_eq.
Qed.

Lemma cors_headers_added_witness :
  ∃ r1 r2,
    value (cors (OriginFunction sample_origin) (Some ["GET"; "POST"])
             (Some [("Content-Type", "text"); ("Authorization", "token")])
             (Some false) sample_target "list" sample_descriptor)
          (sample_args None) []
      = (ReturnPromise (Fulfilled 0%nat), [r1]) ∧
    headers r1 !! "Access-Control-Allow-Origin" = Some "req-1@done" ∧
    headers r1 !! "Access-Control-Allow-Credentials" = Some "false" ∧
    headers r1 !! "Access-Control-Allow-Methods" = Some "GET, POST" ∧
    headers r1 !! "Access-Control-Allow-Headers"
      = Some "Content-Type, Authorization" ∧
    statusCode r1 = 200 ∧
    body r1 = HandlerBody "done" ∧
    value (cors (OriginString "https://a.example") None None None
             sample_target "list" sample_descriptor)
          (sample_args None) []
      = (ReturnPromise (Fulfilled 0%nat), [r2]) ∧
    headers r2 !! "Access-Control-Allow-Origin" = Some "https://a.example" ∧
    headers r2 !! "Access-Control-Allow-Credentials" = Some "true" ∧
    headers r2 !! "Access-Control-Allow-Methods" = None ∧
    headers r2 !! "Access-Control-Allow-Headers" = None.
Proof.
  destruct (cors_headers_added (OriginFunction sample_origin)
              (Some ["GET"; "POST"])
              (Some [("Content-Type", "text"); ("Authorization", "token")])
              (Some false) sample_target "list" sample_descriptor
              (sample_args None) [] 0%nat
              [mkResponse 200 (HandlerBody "done") ∅]
              (mkResponse 200 (HandlerBody "done") ∅)
              eq_refl eq_refl)
    as (r1 & Hrun1 & Ho1 & Hc1 & Hm1 & Hh1 & _ & Hcode1 & Hbody1).
  destruct (cors_headers_added (OriginString "https://a.example") None None
              None sample_target "list" sample_descriptor
              (sample_args None) [] 0%nat
              [mkResponse 200 (HandlerBody "done") ∅]
              (mkResponse 200 (HandlerBody "done") ∅)
              eq_refl eq_refl)
    as (r2 & Hrun2 & Ho2 & Hc2 & Hm2 & Hh2 & _).
  exists r1, r2. split_and!; done.
Defined.

(** ** Registration by [endpoint] *)



Example endpoint_registers_GET :
  route_action <$> (endpoint sample_validate blank_response toUpperCase_ascii
                      "/users" "get" None None sample_target "list"
                      sample_descriptor []).2
  = ["GET"].
Proof. reflexivity. Qed.

(** ** [xdelete] *)

Module XdeleteFacts.

Import Xdelete.

(** C9. [xdelete] returns the descriptor it was given, unchanged, and
    leaves the registry with the earlier routes followed by one new
    route: action DELETE, the supplied path, the class of the target,
    the name of the method and the method's function value. *)
Theorem xdelete_registers_delete path target propertyKey descriptor routes :
  let decorated := xdelete path target propertyKey descriptor routes in
  decorated.1 = descriptor ∧
  value decorated.1 = value descriptor ∧
  ∃ route,
    decorated.2 = routes ++ [route] ∧
    action route = DELETE ∧
    Xdelete.path route = path ∧
    clazz route = constructor target ∧
    functionName route = propertyKey ∧
    function route = value descriptor.
Proof.
  simpl. split_and!; try done.
  eexists. split; [reflexivity|]. done.
Qed.

End XdeleteFacts.

(** ** [redacted] *)

Module RedactedFacts.

Import Redacted.

Lemma getMetadata_along_own key chain st st' :
  own st = own st' →
  getMetadata_along key chain st = getMetadata_along key chain st'.
Proof.
  intros Ho. induction chain as [|o chain IH]; simpl; [done|].
  unfold getOwnMetadata. by rewrite Ho, IH.
Qed.

Lemma getMetadata_define_eq key v target st :
  getMetadata key target (defineMetadata key v target st) = Some v.
Proof.
  unfold getMetadata. cbn [getMetadata_along].
  unfold getOwnMetadata, defineMetadata. cbn [own].
  rewrite lookup_insert_eq. cbn [mbind option_bind].
  by rewrite lookup_insert_eq.
Qed.

Lemma getOwnMetadata_define_ne key key' v target o st :
  key ≠ key' →
  getOwnMetadata key o (defineMetadata key' v target st) =
    getOwnMetadata key o st.
Proof.
  intros Hne. unfold getOwnMetadata, defineMetadata. cbn [own].
  destruct (decide (o = self target)) as [->|Ho].
  - rewrite lookup_insert_eq. cbn [mbind option_bind].
    rewrite lookup_insert_ne by done.
    by destruct (own st !! self target).
  - by rewrite lookup_insert_ne.
Qed.

Lemma getMetadata_define_ne key key' v target target' st :
  key ≠ key' →
  getMetadata key target' (defineMetadata key' v target st) =
    getMetadata key target' st.
Proof.
  intros Hne. unfold getMetadata.
  induction (self target' :: protos target') as [|o chain IH]; simpl; [done|].
  by rewrite getOwnMetadata_define_ne, IH.
Qed.

Lemma written_spec target propertyToRedact m fields a items st :
  records st !! m = Some fields →
  arrays st !! a = Some items →
  let st' := written target propertyToRedact m fields a items st in
  redactedKeys_of target st' = items ++ [propertyToRedact] ∧
  (∀ k, k ≠ REDACTED_KEY → metadata_field k target st' = fields !! k) ∧
  (∀ key, key ≠ METADATA_KEY →
          getMetadata key target st' = getMetadata key target st) ∧
  well_typed target st' = true.
Proof.
  intros Hm Ha st'.
  assert (records st' !! m = Some (<[REDACTED_KEY := ArrayRef a]> fields)) as Hm'.
  { apply list_lookup_insert_eq. by eapply lookup_lt_Some. }
  assert (arrays st' !! a = Some (items ++ [propertyToRedact])) as Ha'.
  { apply list_lookup_insert_eq. by eapply lookup_lt_Some. }
  assert (getMetadata METADATA_KEY target st' = Some (RecordRef m)) as Hg'.
  { apply getMetadata_define_eq. }
  split_and!.
  - unfold redactedKeys_of, metadata_field. rewrite Hg', Hm'.
    cbn [mbind option_bind]. rewrite lookup_insert_eq. by rewrite Ha'.
  - intros k Hk. unfold metadata_field. rewrite Hg', Hm'.
    cbn [mbind option_bind]. by rewrite lookup_insert_ne.
  - intros key Hk. subst st'. unfold written.
    rewrite getMetadata_define_ne by done.
    by apply getMetadata_along_own.
  - unfold well_typed. rewrite Hg', Hm', lookup_insert_eq. by rewrite Ha'.
Qed.

(** The same when the array is new. *)
Lemma fresh_array_spec target propertyToRedact m fields st :
  records st !! m = Some fields →
  let st' := written target propertyToRedact m fields
               (List.length (arrays st)) []
               {| records := records st; arrays := arrays st ++ [[]];
                  own := own st |} in
  redactedKeys_of target st' = [] ++ [propertyToRedact] ∧
  (∀ k, k ≠ REDACTED_KEY → metadata_field k target st' = fields !! k) ∧
  (∀ key, key ≠ METADATA_KEY →
          getMetadata key target st' = getMetadata key target st) ∧
  well_typed target st' = true.
Proof.
  intros Hm. cbv zeta.
  destruct (written_spec target propertyToRedact m fields
              (List.length (arrays st)) []
              {| records := records st; arrays := arrays st ++ [[]];
                 own := own st |}) as (K1 & K2 & K3 & K4);
    [done | by apply list_lookup_middle |].
  split_and!; try done.
  intros key Hk. rewrite K3 by done. by apply getMetadata_along_own.
Qed.

(** The same when both the record and the array are new. *)
Lemma fresh_record_spec target propertyToRedact st :
  let st' := written target propertyToRedact (List.length (records st)) ∅
               (List.length (arrays st)) []
               {| records := records st ++ [∅]; arrays := arrays st ++ [[]];
                  own := own st |} in
  redactedKeys_of target st' = [] ++ [propertyToRedact] ∧
  (∀ k, k ≠ REDACTED_KEY → metadata_field k target st' = None) ∧
  (∀ key, key ≠ METADATA_KEY →
          getMetadata key target st' = getMetadata key target st) ∧
  well_typed target st' = true.
Proof.
  cbv zeta.
  destruct (written_spec target propertyToRedact (List.length (records st)) ∅
              (List.length (arrays st)) []
              {| records := records st ++ [∅]; arrays := arrays st ++ [[]];
                 own := own st |}) as (K1 & K2 & K3 & K4);
    [by apply list_lookup_middle | by apply list_lookup_middle |].
  split_and!; try done.
  intros key Hk. rewrite K3 by done. by apply getMetadata_along_own.
Qed.

(** The lookup of an object right after its allocation. *)
Ltac new_array :=
  cbn [arrays records own];
  rewrite (list_lookup_middle (arrays _) [] [] _ eq_refl).

Ltac new_record :=
  cbn [arrays records own];
  rewrite (list_lookup_middle (records _) [] ∅ _ eq_refl);
  cbn [mbind option_bind]; rewrite lookup_empty;
  cbn [mbind option_bind]; new_array.

(** C10. On a target whose metadata is well typed, [redacted] succeeds;
    afterwards the target's redacted-key list is the earlier list
    followed by the given property name, every other field of the
    target's metadata record and every other metadata key of the target
    are as before, and the metadata is well typed again, so that the
    next application appends in the same way. *)
Theorem redacted_accumulates target propertyToRedact st :
  well_typed target st = true →
  ∃ st',
    redacted target propertyToRedact st = Some st' ∧
    redactedKeys_of target st' =
      redactedKeys_of target st ++ [propertyToRedact] ∧
    (∀ k, k ≠ REDACTED_KEY →
          metadata_field k target st' = metadata_field k target st) ∧
    (∀ key, key ≠ METADATA_KEY →
            getMetadata key target st' = getMetadata key target st) ∧
    well_typed target st' = true.
Proof.
  intros Hwt. unfold well_typed in Hwt. unfold redacted.
  destruct (getMetadata METADATA_KEY target st) as [[m|[] v]|] eqn:Hg;
    try done; cbn [mbind option_bind].
  - destruct (records st !! m) as [fields|] eqn:Hm; [|done].
    assert (∀ k, metadata_field k target st = fields !! k) as Hfield.
    { intros k. unfold metadata_field. by rewrite Hg, Hm. }
    cbn [mbind option_bind].
    destruct (fields !! REDACTED_KEY) as [[a|[] v]|] eqn:Hf; try done;
      cbn [mbind option_bind].
    + destruct (arrays st !! a) as [items|] eqn:Ha; [|done].
      assert (redactedKeys_of target st = items) as ->.
      { unfold redactedKeys_of. by rewrite Hfield, Hf, Ha. }
      exists (written target propertyToRedact m fields a items st).
      split; [reflexivity|]. setoid_rewrite Hfield.
      by apply written_spec.
    + assert (redactedKeys_of target st = []) as ->.
      { unfold redactedKeys_of. by rewrite Hfield, Hf. }
      eexists. split; [by new_array|]. setoid_rewrite Hfield.
      apply (fresh_array_spec target propertyToRedact m fields st Hm).
    + assert (redactedKeys_of target st = []) as ->.
      { unfold redactedKeys_of. by rewrite Hfield, Hf. }
      eexists. split; [by new_array|]. setoid_rewrite Hfield.
      apply (fresh_array_spec target propertyToRedact m fields st Hm).
  - assert (∀ k, metadata_field k target st = None) as Hfield.
    { intros k. unfold metadata_field. by rewrite Hg. }
    assert (redactedKeys_of target st = []) as ->.
    { unfold redactedKeys_of. by rewrite Hfield. }
    eexists. split; [by new_record|]. setoid_rewrite Hfield.
    apply (fresh_record_spec target propertyToRedact st).
  - assert (∀ k, metadata_field k target st = None) as Hfield.
    { intros k. unfold metadata_field. by rewrite Hg. }
    assert (redactedKeys_of target st = []) as ->.
    { unfold redactedKeys_of. by rewrite Hfield. }
    eexists. split; [by new_record|]. setoid_rewrite Hfield.
    apply (fresh_record_spec target propertyToRedact st).
Qed.

Lemma redacted_accumulates_witness :
  ∃ st', redacted parent_target "ssn" one_key_store = Some st' ∧
         redactedKeys_of parent_target st' = ["password"; "ssn"].
Proof.
  destruct (redacted_accumulates parent_target "ssn" one_key_store eq_refl)
    as (st' & Hrun & Hkeys & _).
  exists st'. split; [exact Hrun | exact Hkeys].
Defined.

Example redacted_twice :
  (st ← redacted parent_target "password" empty_store;
   st ← redacted parent_target "ssn" st;
   Some (redactedKeys_of parent_target st)) = Some ["password"; "ssn"].
Proof. reflexivity. Qed.

(** The record found along the prototype chain is shared: a key redacted
    on a subclass is appended to the list of its parent as well. *)
Example redacted_on_subclass :
  (st ← redacted parent_target "password" empty_store;
   st ← redacted child_target "token" st;
   Some (redactedKeys_of child_target st, redactedKeys_of parent_target st))
  = Some (["password"; "token"], ["password"; "token"]).
Proof. reflexivity. Qed.

End RedactedFacts.

(** * Part III: further properties *)

(** ** The wrapper installed by [endpoint] *)

(** X1. The wrapper either validates or calls the handler, never both: with
    a non-empty array of validations its calls are the validator calls, one
    per validation and in order; otherwise it makes one call, of the
    handler, with the arguments it received. *)
Theorem wrapper_validates_or_calls
    (validate : option string -> Schema -> string) (newResponse : HTTPResponse)
    targetMethod args h :
  calls (dispatch validate newResponse targetMethod args h).2 =
    match arg2 args with
    | Some (v :: vs) => validate_calls (arg0 args) (v :: vs)
    | _ => [HandlerCall args]
    end.
Proof.
  unfold dispatch. destruct (arg2 args) as [[|v vs]|] eqn:Hv.
  2:{ by rewrite (wrapper_some_cons _ _ _ _ v vs). }
  all: unfold endpoint_wrapper; rewrite Hv; run_monad.
  all: destruct (targetMethod args h) as [c h1]; destruct c as [l|[l|e|]|e];
    run_monad; try done.
  all: try (by destruct (h1 !! l)).
  all: by destruct (message_of e).
Qed.

(** X2. With at least one validation the wrapper returns a new response
    object itself (no promise) with status 400 and a non-empty message set,
    whatever the validators answer; the objects of the store stay as they
    were, and the outcome is the same for every handler. *)
Theorem validations_preempt_handler
    (validate : option string -> Schema -> string) (newResponse : HTTPResponse)
    targetMethod targetMethod' args v vs h :
  arg2 args = Some (v :: vs) →
  let run := dispatch validate newResponse targetMethod args h in
  run.1 = ReturnResponse (List.length h) ∧
  (∃ errors r, heap run.2 = h ++ [r] ∧
               statusCode r = 400 ∧
               body r = ValidationErrorsBody errors ∧
               errors ≠ [] ∧
               ∀ x, x ∈ errors ↔
                    ∃ v', v' ∈ v :: vs ∧
                          x = validate (event_body (arg0 args)) (schema v')) ∧
  run = dispatch validate newResponse targetMethod' args h.
Proof.
  intros Hv run. subst run. unfold dispatch.
  rewrite !(wrapper_some_cons _ _ _ _ v vs) by done. cbn [fst snd heap calls].
  split_and!; try done.
  eexists _, _. split_and!; try done.
  - apply (collected_cons_not_nil validate _ v vs).
  - intros x. rewrite (elem_of_collected validate _ (v :: vs) []).
    split; [intros [Hin|?]; [by apply not_elem_of_nil in Hin | done] | by right].
Qed.

Lemma validations_preempt_handler_witness :
  (dispatch sample_validate blank_response ok_handler
     (sample_args (Some [{| schema := "ok" |}])) []).1
  = ReturnResponse 0%nat.
Proof.
  apply (validations_preempt_handler sample_validate blank_response ok_handler
           throwing_handler (sample_args (Some [{| schema := "ok" |}]))
           {| schema := "ok" |} [] []).
  reflexivity.
Defined.

(** X3. An error thrown by the handler before it returns a promise leaves
    the wrapper as it came: the wrapper throws the same value, builds no
    response and leaves the store as the handler left it. *)
Theorem thrown_error_leaves_wrapper
    (validate : option string -> Schema -> string) (newResponse : HTTPResponse)
    targetMethod args h e h1 :
  no_validation args →
  targetMethod args h = (Throw e, h1) →
  dispatch validate newResponse targetMethod args h =
    (Throw e, {| heap := h1; calls := [HandlerCall args] |}).
Proof.
  intros Hnv Hm. unfold dispatch.
  by rewrite (wrapper_throw validate newResponse targetMethod args _ e h1).
Qed.

Lemma thrown_error_leaves_wrapper_witness :
  dispatch sample_validate blank_response throwing_handler (sample_args None) []
  = (Throw (ErrorObj "boom"),
     {| heap := []; calls := [HandlerCall (sample_args None)] |}).
Proof.
  apply (thrown_error_leaves_wrapper sample_validate blank_response
           throwing_handler (sample_args None) [] (ErrorObj "boom") []).
  - left. reflexivity.
  - reflexivity.
Defined.

(** X4. What follows a rejected promise is decided by [error.message]: for
    a rejection value that is not nullish the wrapper fulfils with a new 501
    response whose message is that property (undefined when the value has
    none); for [undefined] or [null] reading the property fails inside the
    catch handler, so the wrapper's promise rejects and no response is
    built. *)
Theorem rejection_decided_by_message
    (validate : option string -> Schema -> string) (newResponse : HTTPResponse)
    targetMethod args h e h1 :
  no_validation args →
  targetMethod args h = (ReturnPromise (Rejected e), h1) →
  dispatch validate newResponse targetMethod args h =
    match message_of e with
    | Some m =>
        (ReturnPromise (Fulfilled (List.length h1)),
         {| heap := h1 ++ [built newResponse (FailureBody m) 501 (arg0 args)];
            calls := [HandlerCall args] |})
    | None =>
        (ReturnPromise (Rejected EngineTypeError),
         {| heap := h1; calls := [HandlerCall args] |})
    end.
Proof.
  intros Hnv Hm. unfold dispatch.
  destruct (message_of e) as [m|] eqn:He.
  - by rewrite (wrapper_rejected validate newResponse targetMethod args _ e m h1).
  - unfold endpoint_wrapper.
    destruct Hnv as [-> | ->]; simpl; run_monad; rewrite Hm; run_monad;
      by rewrite He.
Qed.

Lemma rejection_decided_by_message_witness :
  dispatch sample_validate blank_response nullish_handler (sample_args None) []
  = (ReturnPromise (Rejected EngineTypeError),
     {| heap := []; calls := [HandlerCall (sample_args None)] |}).
Proof.
  apply (rejection_decided_by_message sample_validate blank_response
           nullish_handler (sample_args None) [] Nullish []).
  - left. reflexivity.
  - reflexivity.
Defined.

(** X5. A promise fulfilled with a value that is not a response object
    (nothing to call [addHeader] on) is answered like a failure: the
    wrapper fulfils with a new 501 response that carries the engine's
    TypeError text and the request id. *)
Theorem non_response_answered_501
    (validate : option string -> Schema -> string) (newResponse : HTTPResponse)
    targetMethod args h l h1 :
  no_validation args →
  targetMethod args h = (ReturnPromise (Fulfilled l), h1) →
  h1 !! l = None →
  let run := dispatch validate newResponse targetMethod args h in
  run.1 = ReturnPromise (Fulfilled (List.length h1)) ∧
  ∃ r, heap run.2 = h1 ++ [r] ∧
       statusCode r = 501 ∧
       body r = FailureBody MEngineText ∧
       headers r !! "X-REQUEST-ID" =
         Some (requestId (requestContext (arg0 args))).
Proof.
  intros Hnv Hm Hl run. subst run. unfold dispatch.
  rewrite (wrapper_fulfilled_dangling validate newResponse targetMethod args _ l h1)
    by done.
  simpl. split; [done|]. eexists. split_and!; try done.
  apply built_request_id.
Qed.

Lemma non_response_answered_501_witness :
  (dispatch sample_validate blank_response void_handler (sample_args None) []).1
  = ReturnPromise (Fulfilled 0%nat).
Proof.
  apply (non_response_answered_501 sample_validate blank_response void_handler
           (sample_args None) [] 0%nat []).
  - left. reflexivity.
  - reflexivity.
  - reflexivity.
Defined.

(** ** The set of validation messages *)

Lemma collected_length (validate : option string -> Schema -> string) b vs acc :
  (List.length (collected validate b vs acc) ≤ List.length acc + List.length vs)%nat.
Proof.
  revert acc. induction vs as [|v vs IH]; intros acc; simpl; [lia|].
  etrans; [apply IH|]. unfold set_add.
  destruct (decide (validate b (schema v) ∈ acc)); [lia|].
  rewrite length_app. simpl. lia.
Qed.

Lemma collected_distinct (validate : option string -> Schema -> string) b vs acc :
  NoDup (acc ++ map (fun v => validate b (schema v)) vs) →
  collected validate b vs acc = acc ++ map (fun v => validate b (schema v)) vs.
Proof.
  revert acc. induction vs as [|v vs IH]; intros acc Hnd; simpl.
  - by rewrite app_nil_r.
  - simpl in Hnd. rewrite cons_middle, (assoc_L (++)) in Hnd.
    rewrite cons_middle, (assoc_L (++)). unfold set_add.
    destruct (decide (validate b (schema v) ∈ acc)) as [Hin|Hin].
    + exfalso. apply NoDup_app in Hnd as [Hnd _].
      apply NoDup_app in Hnd as (_ & Hdisj & _).
      apply (Hdisj _ Hin), list_elem_of_here.
    + by apply IH.
Qed.

Lemma collected_same (validate : option string -> Schema -> string) b vs m :
  (∀ v, v ∈ vs → validate b (schema v) = m) →
  collected validate b vs [m] = [m].
Proof.
  induction vs as [|v vs IH]; intros Hall; simpl; [done|].
  rewrite (Hall v) by apply list_elem_of_here. unfold set_add.
  rewrite decide_True by apply list_elem_of_here.
  apply IH. intros v' Hv'. by apply Hall, list_elem_of_further.
Qed.

(** X6. The message set never has more entries than there are validations;
    when the validators' answers are pairwise different it lists them all,
    in the order of the validations; and when all validations give the
    same answer it holds that answer once. *)
Theorem message_set_deduplicates
    (validate : option string -> Schema -> string) b v vs :
  let answers := map (fun v => validate b (schema v)) (v :: vs) in
  (List.length (collected validate b (v :: vs) []) ≤ List.length (v :: vs))%nat ∧
  (NoDup answers → collected validate b (v :: vs) [] = answers) ∧
  (∀ m, (∀ v', v' ∈ v :: vs → validate b (schema v') = m) →
        collected validate b (v :: vs) [] = [m]).
Proof.
  intros answers. split_and!.
  - apply (collected_length validate b (v :: vs) []).
  - intros Hnd. by apply (collected_distinct validate b (v :: vs) []).
  - intros m Hall. simpl. rewrite (Hall v) by apply list_elem_of_here.
    apply collected_same. intros v' Hv'. by apply Hall, list_elem_of_further.
Qed.

Lemma message_set_deduplicates_witness :
  collected sample_validate (Some "{}")
    [{| schema := "age" |}; {| schema := "age" |}; {| schema := "age" |}] []
  = ["bad age"].
Proof.
  apply (message_set_deduplicates sample_validate (Some "{}")
           {| schema := "age" |} [{| schema := "age" |}; {| schema := "age" |}]).
  intros v' Hv'. apply list_elem_of_In in Hv'. simpl in Hv'.
  destruct Hv' as [<-|[<-|[<-|[]]]]; reflexivity.
Defined.

(** ** The wrapper installed by [cors], and the two decorators together *)

Lemma cors_wrapper_fulfilled allowedOrigin allowedActions allowedHeaders
    allowCredentials targetMethod args w l h1 r :
  targetMethod args (heap w) = (ReturnPromise (Fulfilled l), h1) →
  h1 !! l = Some r →
  cors_wrapper allowedOrigin allowedActions allowedHeaders
    (default true allowCredentials) targetMethod args w
  = (ReturnPromise (Fulfilled l),
     {| heap := <[l := with_cors_headers allowedOrigin allowedActions
                         allowedHeaders allowCredentials (arg0 args) r]> h1;
        calls := calls w ++ [HandlerCall args] |}).
Proof.
  intros Hm Hl. unfold cors_wrapper. run_monad. rewrite Hm. run_monad.
  rewrite Hl. by destruct allowedActions, allowedHeaders.
Qed.

Lemma cors_wrapper_unfulfilled allowedOrigin allowedActions allowedHeaders
    allowCredentials targetMethod args w c h1 :
  targetMethod args (heap w) = (c, h1) →
  unfulfilled c = true →
  cors_wrapper allowedOrigin allowedActions allowedHeaders allowCredentials
    targetMethod args w
  = (c, {| heap := h1; calls := calls w ++ [HandlerCall args] |}).
Proof.
  intros Hm Hc. unfold cors_wrapper. run_monad. rewrite Hm.
  by destruct c as [l|[l|e|]|e].
Qed.

(** X7. [cors] leaves every failure as it is: when the decorated method
    throws, or returns a promise that rejects or never settles, the method
    installed by [cors] completes in the same way and leaves the store as
    the method left it; no header is added anywhere. *)
Theorem cors_leaves_failures allowedOrigin allowedActions allowedHeaders
    allowCredentials target propertyKey descriptor args h c h1 :
  value descriptor args h = (c, h1) →
  unfulfilled c = true →
  value (cors allowedOrigin allowedActions allowedHeaders allowCredentials
           target propertyKey descriptor) args h = (c, h1).
Proof.
  intros Hm Hc. unfold cors, set_value, as_method. simpl.
  by rewrite (cors_wrapper_unfulfilled _ _ _ _ _ _ _ c h1).
Qed.

Lemma cors_leaves_failures_witness :
  value (cors (OriginString "*") None None None sample_target "list"
           (set_value rejecting_handler sample_descriptor))
        (sample_args None) []
  = (ReturnPromise (Rejected (ErrorObj "boom")), []).
Proof.
  apply (cors_leaves_failures (OriginString "*") None None None sample_target
           "list" (set_value rejecting_handler sample_descriptor)
           (sample_args None) [] (ReturnPromise (Rejected (ErrorObj "boom"))) []).
  - reflexivity.
  - reflexivity.
Defined.

Lemma with_cors_headers_frame allowedOrigin allowedActions allowedHeaders
    allowCredentials event r :
  let r' := with_cors_headers allowedOrigin allowedActions allowedHeaders
              allowCredentials event r in
  statusCode r' = statusCode r ∧ body r' = body r ∧
  headers r' !! "Access-Control-Allow-Origin"
    = Some (origin_of allowedOrigin event r) ∧
  headers r' !! "Access-Control-Allow-Credentials"
    = Some (if default true allowCredentials then "true" else "false") ∧
  headers r' !! "X-REQUEST-ID" = headers r !! "X-REQUEST-ID".
Proof.
  unfold with_cors_headers, addHeader.
  destruct allowedActions, allowedHeaders; simpl; split_and!; try done.
  all: by simplify_map_eq.
Qed.

(** X8. In the order the source asks for ([endpoint] applied to the
    descriptor that [cors] returned), a request without validations whose
    handler fulfils with a response object is answered with that same
    object, which then carries the CORS origin and credentials headers and
    the request id; status code and body are the handler's. *)
Theorem endpoint_over_cors_success
    (validate : option string -> Schema -> string) (newResponse : HTTPResponse)
    (toUpperCase : string -> string)
    path action condition priority allowedOrigin allowedActions allowedHeaders
    allowCredentials target propertyKey descriptor routes args h l h1 r :
  no_validation args →
  value descriptor args h = (ReturnPromise (Fulfilled l), h1) →
  h1 !! l = Some r →
  let decorated :=
    (endpoint validate newResponse toUpperCase path action condition priority
       target propertyKey
       (cors allowedOrigin allowedActions allowedHeaders allowCredentials
          target propertyKey descriptor) routes).1 in
  ∃ r',
    value decorated args h = (ReturnPromise (Fulfilled l), <[l := r']> h1) ∧
    headers r' !! "X-REQUEST-ID" =
      Some (requestId (requestContext (arg0 args))) ∧
    headers r' !! "Access-Control-Allow-Origin"
      = Some (origin_of allowedOrigin (arg0 args) r) ∧
    headers r' !! "Access-Control-Allow-Credentials"
      = Some (if default true allowCredentials then "true" else "false") ∧
    statusCode r' = statusCode r ∧
    body r' = body r.
Proof.
  intros Hnv Hm Hl decorated. subst decorated.
  pose proof (with_cors_headers_frame allowedOrigin allowedActions
                allowedHeaders allowCredentials (arg0 args) r)
    as (Hcode & Hbody & Horigin & Hcred & _).
  set (r1 := with_cors_headers allowedOrigin allowedActions allowedHeaders
                allowCredentials (arg0 args) r) in *.
  set (inner := value (cors allowedOrigin allowedActions allowedHeaders
                         allowCredentials target propertyKey descriptor)).
  assert (inner args h = (ReturnPromise (Fulfilled l), <[l := r1]> h1)) as Hinner.
  { subst inner. unfold cors, set_value, as_method. cbn [value].
    by rewrite (cors_wrapper_fulfilled _ _ _ _ _ _ _ l h1 r). }
  assert (<[l := r1]> h1 !! l = Some r1) as Hl1.
  { apply list_lookup_insert_eq. by eapply lookup_lt_Some. }
  eexists. split.
  - unfold endpoint, set_value. cbn [fst value]. fold inner.
    unfold as_method.
    rewrite (wrapper_fulfilled validate newResponse inner args _ l
               (<[l := r1]> h1) r1 Hnv Hinner Hl1).
    cbn [heap]. f_equal. apply list_insert_insert_eq.
  - unfold addHeader. simpl. split_and!; try done.
    + apply lookup_insert_eq.
    + by rewrite lookup_insert_ne.
    + by rewrite lookup_insert_ne.
Qed.

Lemma endpoint_over_cors_success_witness :
  ∃ r',
    value (endpoint sample_validate blank_response toUpperCase_ascii "/users"
             "get" None None sample_target "list"
             (cors (OriginString "*") None None None sample_target "list"
                sample_descriptor) []).1
          (sample_args None) []
      = (ReturnPromise (Fulfilled 0%nat), [r']) ∧
    headers r' !! "X-REQUEST-ID" = Some "req-1" ∧
    headers r' !! "Access-Control-Allow-Origin" = Some "*".
Proof.
  destruct (endpoint_over_cors_success sample_validate blank_response
              toUpperCase_ascii "/users" "get" None None (OriginString "*")
              None None None sample_target "list" sample_descriptor [] (sample_args None) [] 0%nat
              [mkResponse 200 (HandlerBody "done") ∅]
              (mkResponse 200 (HandlerBody "done") ∅)
              (or_introl eq_refl) eq_refl eq_refl)
    as (r' & Hrun & Hid & Horigin & _).
  exists r'. split_and!; done.
Defined.

(** X9. In the same order, the responses the wrapper builds itself carry
    no header from [cors]: after a rejection the 501 response, and with a
    non-empty array of validations the 400 response, hold for each of the
    four CORS header names what a newly created response holds. *)
Theorem endpoint_over_cors_failure
    (validate : option string -> Schema -> string) (newResponse : HTTPResponse)
    (toUpperCase : string -> string)
    path action condition priority allowedOrigin allowedActions allowedHeaders
    allowCredentials target propertyKey descriptor routes args h :
  let decorated :=
    (endpoint validate newResponse toUpperCase path action condition priority
       target propertyKey
       (cors allowedOrigin allowedActions allowedHeaders allowCredentials
          target propertyKey descriptor) routes).1 in
  (∀ e m h1,
     no_validation args →
     value descriptor args h = (ReturnPromise (Rejected e), h1) →
     message_of e = Some m →
     ∃ r, value decorated args h
            = (ReturnPromise (Fulfilled (List.length h1)), h1 ++ [r]) ∧
          statusCode r = 501 ∧
          ∀ name, name ∈ cors_names →
                  headers r !! name = headers newResponse !! name) ∧
  (∀ v vs,
     arg2 args = Some (v :: vs) →
     ∃ r, value decorated args h = (ReturnResponse (List.length h), h ++ [r]) ∧
          statusCode r = 400 ∧
          ∀ name, name ∈ cors_names →
                  headers r !! name = headers newResponse !! name).
Proof.
  intros decorated. subst decorated.
  assert (∀ b code name, name ∈ cors_names →
            headers (built newResponse b code (arg0 args)) !! name
            = headers newResponse !! name) as Hframe.
  { intros b code name Hin. unfold built, addHeader. simpl.
    apply lookup_insert_ne. intros <-.
    apply list_elem_of_In in Hin. simpl in Hin.
    by destruct Hin as [?|[?|[?|[?|[]]]]]. }
  split.
  - intros e m h1 Hnv Hm He. eexists. split_and!; [| | by apply Hframe].
    + set (inner := value (cors allowedOrigin allowedActions allowedHeaders
                             allowCredentials target propertyKey descriptor)).
      assert (inner args h = (ReturnPromise (Rejected e), h1)) as Hinner.
      { subst inner. unfold cors, set_value, as_method. cbn [value].
        by rewrite (cors_wrapper_unfulfilled _ _ _ _ _ _ _
                      (ReturnPromise (Rejected e)) h1). }
      unfold endpoint, set_value. cbn [fst value]. fold inner.
      unfold as_method.
      by rewrite (wrapper_rejected validate newResponse inner args _ e m h1
                    Hnv Hinner He).
    + done.
  - intros v vs Hv. eexists. split_and!; [| | by apply Hframe].
    + unfold endpoint, cors, set_value. cbn [fst value]. unfold as_method at 1.
      by rewrite (wrapper_some_cons _ _ _ _ v vs).
    + done.
Qed.

Lemma endpoint_over_cors_failure_witness :
  ∃ r,
    value (endpoint sample_validate blank_response toUpperCase_ascii "/users"
             "get" None None sample_target "list"
             (cors (OriginString "*") None None None sample_target "list"
                (set_value rejecting_handler sample_descriptor)) []).1
          (sample_args None) []
      = (ReturnPromise (Fulfilled 0%nat), [r]) ∧
    statusCode r = 501 ∧
    headers r !! "Access-Control-Allow-Origin" = None.
Proof.
  destruct (endpoint_over_cors_failure sample_validate blank_response
              toUpperCase_ascii "/users" "get" None None (OriginString "*")
              None None None sample_target "list" (set_value rejecting_handler sample_descriptor) []
              (sample_args None) []) as [H501 _].
  destruct (H501 (ErrorObj "boom") (MString "boom") []
              (or_introl eq_refl) eq_refl eq_refl) as (r & Hrun & Hcode & Hnone).
  exists r. split_and!; [exact Hrun | exact Hcode |].
  rewrite Hnone; [reflexivity|]. unfold cors_names. apply list_elem_of_here.
Defined.

(** X10. In the other order ([cors] applied to the descriptor that
    [endpoint] returned) a request with at least one validation ends in a
    TypeError: the wrapper of [endpoint] returns the 400 response object
    itself, which is no promise, so the call of [then] on it fails; the 400
    response stays in the store and is not returned. *)
Theorem cors_over_endpoint_validations_throw
    (validate : option string -> Schema -> string) (newResponse : HTTPResponse)
    (toUpperCase : string -> string)
    path action condition priority allowedOrigin allowedActions allowedHeaders
    allowCredentials target propertyKey descriptor routes args v vs h :
  arg2 args = Some (v :: vs) →
  let decorated :=
    cors allowedOrigin allowedActions allowedHeaders allowCredentials target
      propertyKey
      (endpoint validate newResponse toUpperCase path action condition priority
         target propertyKey descriptor routes).1 in
  ∃ r, value decorated args h = (Throw EngineTypeError, h ++ [r]) ∧
       statusCode r = 400.
Proof.
  intros Hv decorated. subst decorated. eexists. split.
  - unfold cors, endpoint, set_value. cbn [fst value]. unfold as_method at 1.
    unfold cors_wrapper. run_monad. unfold as_method.
    rewrite (wrapper_some_cons _ _ _ _ v vs) by done. reflexivity.
  - done.
Qed.

Lemma cors_over_endpoint_validations_throw_witness :
  ∃ r,
    value (cors (OriginString "*") None None None sample_target "list"
             (endpoint sample_validate blank_response toUpperCase_ascii
                "/users" "get" None None sample_target "list"
                sample_descriptor []).1)
          (sample_args (Some [{| schema := "age" |}])) []
      = (Throw EngineTypeError, [r]) ∧
    statusCode r = 400.
Proof.
  apply (cors_over_endpoint_validations_throw sample_validate blank_response
           toUpperCase_ascii "/users" "get" None None (OriginString "*") None None None
           sample_target "list" sample_descriptor []
           (sample_args (Some [{| schema := "age" |}]))
           {| schema := "age" |} [] []).
  reflexivity.
Defined.

Lemma cors_method_cases allowedOrigin allowedActions allowedHeaders
    allowCredentials target propertyKey descriptor args h :
  value (cors allowedOrigin allowedActions allowedHeaders allowCredentials
           target propertyKey descriptor) args h
  = match value descriptor args h with
    | (ReturnPromise (Fulfilled l), h1) =>
        match h1 !! l with
        | Some r =>
            (ReturnPromise (Fulfilled l),
             <[l := with_cors_headers allowedOrigin allowedActions
                      allowedHeaders allowCredentials (arg0 args) r]> h1)
        | None => (ReturnPromise (Rejected EngineTypeError), h1)
        end
    | (ReturnResponse _, h1) => (Throw EngineTypeError, h1)
    | (c, h1) => (c, h1)
    end.
Proof.
  unfold cors, set_value, as_method. cbn [value].
  destruct (value descriptor args h) as [c h1] eqn:Hm.
  destruct c as [l|[l|e|]|e].
  - unfold cors_wrapper. run_monad. by rewrite Hm.
  - destruct (h1 !! l) as [r|] eqn:Hl.
    + by rewrite (cors_wrapper_fulfilled _ _ _ _ _ _ _ l h1 r).
    + unfold cors_wrapper. run_monad. rewrite Hm. run_monad. by rewrite Hl.
  - by rewrite (cors_wrapper_unfulfilled _ _ _ _ _ _ _
                  (ReturnPromise (Rejected e)) h1).
  - by rewrite (cors_wrapper_unfulfilled _ _ _ _ _ _ _
                  (ReturnPromise Pending) h1).
  - by rewrite (cors_wrapper_unfulfilled _ _ _ _ _ _ _ (Throw e) h1).
Qed.

Lemma with_cors_headers_static_idem s allowedActions allowedHeaders
    allowCredentials event r :
  let decorate := with_cors_headers (OriginString s) allowedActions
                    allowedHeaders allowCredentials event in
  decorate (decorate r) = decorate r.
Proof.
  unfold with_cors_headers, addHeader, origin_of.
  destruct allowedActions, allowedHeaders; simpl; f_equal.
  all: apply map_eq; intros k; rewrite !lookup_insert.
  all: by repeat case_decide.
Qed.

(** X11. With a static origin, decorating a method twice with the same
    [cors] configuration gives a method that behaves as the method
    decorated once: same completion and same store, for every call. *)
Theorem cors_twice_static_origin s allowedActions allowedHeaders
    allowCredentials target propertyKey descriptor args h :
  let once := cors (OriginString s) allowedActions allowedHeaders
                allowCredentials target propertyKey descriptor in
  let twice := cors (OriginString s) allowedActions allowedHeaders
                 allowCredentials target propertyKey once in
  value twice args h = value once args h.
Proof.
  intros once twice. subst twice. rewrite cors_method_cases.
  subst once. rewrite cors_method_cases.
  destruct (value descriptor args h) as [c h1].
  destruct c as [l|[l|e|]|e]; try done.
  destruct (h1 !! l) as [r|] eqn:Hl; [|done].
  unfold Heap, Loc in *.
  rewrite list_lookup_insert_eq by (by eapply lookup_lt_Some).
  f_equal. etrans; [apply list_insert_insert_eq|]. f_equal.
  apply with_cors_headers_static_idem.
Qed.

(** ** [redacted]: what it changes and what it shares *)

Module RedactedFrame.

Import Redacted RedactedFacts.

(** The run of [redacted] on well-typed metadata: the record [m] and the
    array [a] it writes to are the ones it found, or new ones at the end of
    the store. *)
Lemma redacted_run target propertyToRedact st :
  well_typed target st = true →
  ∃ m fields a st1,
    redacted target propertyToRedact st =
      Some (written target propertyToRedact m fields a
              (redactedKeys_of target st) st1) ∧
    own st1 = own st ∧
    records st1 !! m = Some fields ∧
    arrays st1 !! a = Some (redactedKeys_of target st) ∧
    (getMetadata METADATA_KEY target st = Some (RecordRef m) ∧
       records st1 = records st ∨
     (∀ i, getMetadata METADATA_KEY target st ≠ Some (RecordRef i)) ∧
       m = List.length (records st) ∧ records st1 = records st ++ [∅]) ∧
    (metadata_field REDACTED_KEY target st = Some (ArrayRef a) ∧
       arrays st1 = arrays st ∨
     a = List.length (arrays st) ∧ arrays st1 = arrays st ++ [[]]).
Proof.
  intros Hwt. unfold well_typed in Hwt. unfold redacted.
  destruct (getMetadata METADATA_KEY target st) as [[m|[] v]|] eqn:Hg;
    try done; cbn [mbind option_bind].
  - destruct (records st !! m) as [fields|] eqn:Hm; [|done].
    assert (∀ k, metadata_field k target st = fields !! k) as Hfield.
    { intros k. unfold metadata_field. by rewrite Hg, Hm. }
    cbn [mbind option_bind].
    destruct (fields !! REDACTED_KEY) as [[a|[] v]|] eqn:Hf; try done;
      cbn [mbind option_bind].
    + destruct (arrays st !! a) as [items|] eqn:Ha; [|done].
      assert (redactedKeys_of target st = items) as ->.
      { unfold redactedKeys_of. by rewrite Hfield, Hf, Ha. }
      exists m, fields, a, st. rewrite Hfield.
      split; [reflexivity|]. split_and!; auto.
    + assert (redactedKeys_of target st = []) as ->.
      { unfold redactedKeys_of. by rewrite Hfield, Hf. }
      exists m, fields, (List.length (arrays st)),
        {| records := records st; arrays := arrays st ++ [[]]; own := own st |}.
      split; [by new_array|].
      cbn [own records arrays]. split_and!; auto.
      by apply list_lookup_middle.
    + assert (redactedKeys_of target st = []) as ->.
      { unfold redactedKeys_of. by rewrite Hfield, Hf. }
      exists m, fields, (List.length (arrays st)),
        {| records := records st; arrays := arrays st ++ [[]]; own := own st |}.
      split; [by new_array|].
      cbn [own records arrays]. split_and!; auto.
      by apply list_lookup_middle.
  - assert (redactedKeys_of target st = []) as ->.
    { unfold redactedKeys_of, metadata_field. by rewrite Hg. }
    exists (List.length (records st)), ∅, (List.length (arrays st)),
      {| records := records st ++ [∅]; arrays := arrays st ++ [[]];
         own := own st |}.
    split; [by new_record|].
    cbn [own records arrays]. split_and!; auto.
    all: by apply list_lookup_middle.
  - assert (redactedKeys_of target st = []) as ->.
    { unfold redactedKeys_of, metadata_field. by rewrite Hg. }
    exists (List.length (records st)), ∅, (List.length (arrays st)),
      {| records := records st ++ [∅]; arrays := arrays st ++ [[]];
         own := own st |}.
    split; [by new_record|].
    cbn [own records arrays]. split_and!; auto.
    all: by apply list_lookup_middle.
Qed.

Lemma redacted_step target propertyToRedact st :
  well_typed target st = true →
  ∃ st', redacted target propertyToRedact st = Some st' ∧
         redactedKeys_of target st' =
           redactedKeys_of target st ++ [propertyToRedact] ∧
         well_typed target st' = true.
Proof.
  intros Hwt.
  destruct (redacted_run target propertyToRedact st Hwt)
    as (m & fields & a & st1 & Hrun & _ & Hm & Ha & _).
  eexists. split; [exact Hrun|].
  destruct (written_spec target propertyToRedact m fields a
              (redactedKeys_of target st) st1 Hm Ha) as (Hk & _ & _ & Hwt').
  by split.
Qed.

(** X12. [redacted] writes to three places only: the metadata entry the
    target owns under the library's key, the metadata record it found and
    the key array it found (or new ones at the end of the store). The
    metadata that any other object owns, every other record and every
    other array of the store are as before, and nothing is removed. *)
Theorem redacted_frame target propertyToRedact st :
  well_typed target st = true →
  ∃ st',
    redacted target propertyToRedact st = Some st' ∧
    (∀ o, o ≠ self target → own st' !! o = own st !! o) ∧
    (∀ i fields,
       getMetadata METADATA_KEY target st ≠ Some (RecordRef i) →
       records st !! i = Some fields → records st' !! i = Some fields) ∧
    (∀ j items,
       metadata_field REDACTED_KEY target st ≠ Some (ArrayRef j) →
       arrays st !! j = Some items → arrays st' !! j = Some items) ∧
    (List.length (records st) ≤ List.length (records st'))%nat ∧
    (List.length (arrays st) ≤ List.length (arrays st'))%nat.
Proof.
  intros Hwt.
  destruct (redacted_run target propertyToRedact st Hwt)
    as (m & fields & a & st1 & Hrun & Hown & Hm & Ha & Hrec & Harr).
  eexists. split; [exact Hrun|]. unfold written, defineMetadata.
  cbn [own records arrays]. rewrite !length_insert. split_and!.
  - intros o Ho. rewrite lookup_insert_ne by done. by rewrite Hown.
  - intros i fs Hi Hfs.
    assert (i < List.length (records st))%nat by (by eapply lookup_lt_Some).
    destruct Hrec as [[Hg ->]|(_ & -> & ->)].
    + rewrite list_lookup_insert_ne; [done|]. intros <-. by apply Hi.
    + rewrite list_lookup_insert_ne by lia. by rewrite lookup_app_l.
  - intros j items Hj Hitems.
    assert (j < List.length (arrays st))%nat by (by eapply lookup_lt_Some).
    destruct Harr as [[Hf ->]|[-> ->]].
    + rewrite list_lookup_insert_ne; [done|]. intros <-. by apply Hj.
    + rewrite list_lookup_insert_ne by lia. by rewrite lookup_app_l.
  - destruct Hrec as [[_ ->]|(_ & _ & ->)]; [lia|]. rewrite length_app. lia.
  - destruct Harr as [[_ ->]|[_ ->]]; [lia|]. rewrite length_app. lia.
Qed.

Lemma redacted_frame_witness :
  ∃ st', redacted child_target "token" one_key_store = Some st' ∧
         own st' !! 1%nat = own one_key_store !! 1%nat.
Proof.
  destruct (redacted_frame child_target "token" one_key_store eq_refl)
    as (st' & Hrun & Hown & _).
  exists st'. split; [exact Hrun|]. apply Hown. discriminate.
Defined.

Lemma getMetadata_along_shared key chain m target st0 st :
  own st0 = own st →
  getMetadata_along key chain st = Some (RecordRef m) →
  getMetadata_along key chain (defineMetadata key (RecordRef m) target st0)
  = Some (RecordRef m).
Proof.
  intros Hown.
  assert (getOwnMetadata key (self target)
            (defineMetadata key (RecordRef m) target st0)
          = Some (RecordRef m)) as Hself.
  { unfold getOwnMetadata, defineMetadata. cbn [own].
    rewrite lookup_insert_eq. cbn [mbind option_bind].
    by rewrite lookup_insert_eq. }
  assert (∀ o, o ≠ self target →
            getOwnMetadata key o (defineMetadata key (RecordRef m) target st0)
            = getOwnMetadata key o st) as Hother.
  { intros o Ho. unfold getOwnMetadata, defineMetadata. cbn [own].
    rewrite lookup_insert_ne by done. by rewrite Hown. }
  induction chain as [|o chain IH]; simpl; [done|].
  destruct (decide (o = self target)) as [->|Ho].
  - by rewrite Hself.
  - rewrite (Hother o Ho). destruct (getOwnMetadata key o st); [done | apply IH].
Qed.

(** X13. The metadata record is shared, not copied: when the target finds
    a metadata record (its own, or one it inherits along the prototype
    chain), every object that finds the same record, such as the parent
    class the record was inherited from, has the new key appended to its
    redacted-key list too. *)
Theorem redacted_shared_with target target' propertyToRedact m st :
  well_typed target st = true →
  getMetadata METADATA_KEY target st = Some (RecordRef m) →
  getMetadata METADATA_KEY target' st = Some (RecordRef m) →
  ∃ st',
    redacted target propertyToRedact st = Some st' ∧
    redactedKeys_of target' st' =
      redactedKeys_of target' st ++ [propertyToRedact].
Proof.
  intros Hwt Hg Hg'.
  destruct (redacted_run target propertyToRedact st Hwt)
    as (m0 & fields & a & st1 & Hrun & Hown & Hm & Ha & Hrec & _).
  assert (m0 = m) as ->.
  { destruct Hrec as [[Hg0 _]|(Hno & _)]; [congruence | by destruct (Hno m)]. }
  eexists. split; [exact Hrun|].
  assert (redactedKeys_of target' st = redactedKeys_of target st) as ->.
  { unfold redactedKeys_of, metadata_field. by rewrite Hg, Hg'. }
  set (st' := written target propertyToRedact m fields a
                (redactedKeys_of target st) st1).
  assert (getMetadata METADATA_KEY target' st' = Some (RecordRef m)) as Hg1.
  { subst st'. unfold written, getMetadata.
    by apply (getMetadata_along_shared _ _ m target _ st). }
  unfold redactedKeys_of at 1, metadata_field. rewrite Hg1.
  subst st'. unfold written, defineMetadata. cbn [records arrays].
  rewrite list_lookup_insert_eq by (by eapply lookup_lt_Some).
  cbn [mbind option_bind]. rewrite lookup_insert_eq.
  by rewrite list_lookup_insert_eq by (by eapply lookup_lt_Some).
Qed.

Lemma redacted_shared_with_witness :
  ∃ st', redacted child_target "token" one_key_store = Some st' ∧
         redactedKeys_of parent_target st' = ["password"; "token"].
Proof.
  destruct (redacted_shared_with child_target parent_target "token" 0%nat
              one_key_store eq_refl eq_refl eq_refl) as (st' & Hrun & Hkeys).
  exists st'. split; [exact Hrun | exact Hkeys].
Defined.

(** X14. Redacting the properties of a class one after the other appends
    all their names, in that order and with repetitions kept, to the
    target's redacted-key list; no application fails. *)
Theorem redacted_all_appends target ks st :
  well_typed target st = true →
  ∃ st', redacted_all target ks st = Some st' ∧
         redactedKeys_of target st' = redactedKeys_of target st ++ ks ∧
         well_typed target st' = true.
Proof.
  revert st. induction ks as [|k ks IH]; intros st Hwt; simpl.
  - exists st. by rewrite app_nil_r.
  - destruct (redacted_step target k st Hwt) as (st1 & -> & Hk & Hwt1).
    destruct (IH st1 Hwt1) as (st' & Hrun & Hks & Hwt').
    exists st'. split_and!; try done.
    by rewrite Hks, Hk, <- app_assoc.
Qed.

Lemma redacted_all_appends_witness :
  ∃ st', redacted_all parent_target ["ssn"; "pin"; "ssn"] one_key_store
           = Some st' ∧
         redactedKeys_of parent_target st' = ["password"; "ssn"; "pin"; "ssn"].
Proof.
  destruct (redacted_all_appends parent_target ["ssn"; "pin"; "ssn"]
              one_key_store eq_refl) as (st' & Hrun & Hkeys & _).
  exists st'. split; [exact Hrun | exact Hkeys].
Defined.

End RedactedFrame.
